(** * resiprocate: the SIP stack facade, the Conversation Manager registry
      and the gaim conduit

    A shallow embedding of
    - [tags/T_VOCAL_1_5_BRANCHPOINT/sip/resiprocate/SipStack.cxx]
      (module [Vocal2]),
    - [resip/recon/ConversationManager.hxx] (module [recon]),
    - [branches/b-jasomi-20031219-1/sip/gag/GagConduit.cxx] (module [gag]),
    followed by the properties proved about them.  What a file uses but
    does not define is a parameter (a class of the module); a member
    function of which the sources hold the declaration only is modelled
    from the header's comments and the specification, and says so. *)

From stdpp Require Import gmap strings list fin_maps.
From Stdlib Require Import ZArith.

Set Warnings "-clear-no-such-hyp".

(** [Data] is the stack's byte string ([sip2/util/Data.hxx]). *)
Abbreviation Data := string (only parsing).

(** An address of an object in memory; the null pointer is [None] of
    [option ptr]. *)
Abbreviation ptr := positive (only parsing).

(* ================================================================== *)
(** ** SipStack.cxx *)
(* ================================================================== *)

Module Vocal2.

(** [Data::empty()]: the string has no byte. *)
Definition Data_empty (d : Data) : bool :=
  match d with
  | EmptyString => true
  | String _ _ => false
  end.

(** What SipStack.cxx includes and uses but does not define: the message
    classes, [Uri], [Transport::Type], [FdSet], and the members
    [mTransportSelector] and [mExecutive] with the one call the file makes
    on the selector.  They are parameters of the development.
    [SipMessage_copy] is the copy constructor [SipMessage(const SipMessage&)],
    [brief], [setFromTU] and [setTarget] are the member functions of the same
    names; [TransportSelector_addTransport] answers [None] when the call does
    not return (it throws or an assertion of it fires). *)
Class Sip2Types := {
  SipMessage : Type;
  OtherMessage : Type;
  Uri : Type;
  Transport_Type : Type;
  FdSet : Type;
  TransportSelector : Type;
  Executive : Type;
  SipMessage_copy : SipMessage → SipMessage;
  brief : SipMessage → Data;
  setFromTU : SipMessage → SipMessage;
  setTarget : Uri → SipMessage → SipMessage;
  TransportSelector_addTransport :
    Transport_Type → Z → Data → Data → TransportSelector → option TransportSelector;
  (** [gethostname]/[gethostbyname] as [getHostname] reads them: the
      [h_name] of the host entry, [None] when one of its asserts fires. *)
  hostEnt_h_name : option Data;
}.

(** An object of class [Message]: a [SipMessage] or one of the other
    subclasses ([dynamic_cast<SipMessage*>] tells them apart). *)
Inductive Message `{Sip2Types} :=
| Sip (m : SipMessage)
| NotSip (o : OtherMessage).

(** The members of [SipStack] that SipStack.cxx reads or writes.  A
    [Fifo<Message>] is the list of the queued pointers, oldest first. *)
Record SipStack `{Sip2Types} := mkSipStack {
  mExecutive : Executive;
  mTransportSelector : TransportSelector;
  mStateMacFifo : list ptr;
  mTUFifo : list ptr;
  mDomains : gset Data;
}.
Arguments mkSipStack {_} _ _ _ _ _.

(** The program state: the objects in memory by address, the stack object
    and the lines written by [InfoLog]. *)
Record State `{Sip2Types} := mkState {
  memory : gmap ptr Message;
  self : SipStack;
  logged : list Data;
}.
Arguments mkState {_} _ _ _.

(** The calls SipStack.cxx forwards to [mExecutive].  The executive keeps a
    reference to the whole stack, so each is a function of the state; the
    alias set is written by [addAlias] only, which the three [_mDomains]
    laws record. *)
Class Sip2Executive `{Sip2Types} := {
  Executive_process : FdSet → State → State;
  Executive_buildFdSet : FdSet → State → State;
  Executive_getTimeTillNextProcessMS : State → State * Z;
  Executive_process_mDomains fd st :
    mDomains (self (Executive_process fd st)) = mDomains (self st);
  Executive_buildFdSet_mDomains fd st :
    mDomains (self (Executive_buildFdSet fd st)) = mDomains (self st);
  Executive_getTimeTillNextProcessMS_mDomains st :
    mDomains (self (Executive_getTimeTillNextProcessMS st).1) = mDomains (self st);
}.

Section SipStack.
Context `{Sip2Types}.

(** Modelled from the spec: [Fifo] ([sip2/util/Fifo.hxx]) is not among the
    sources; it is a queue in post order, [add] appends, [messageAvailable]
    tells whether a message is queued and [getNext] takes the oldest one and
    waits when there is none ([None] here). *)
Definition Fifo_add (msg : ptr) (fifo : list ptr) : list ptr := fifo ++ [msg].

Definition Fifo_messageAvailable (fifo : list ptr) : bool :=
  match fifo with
  | [] => false
  | _ :: _ => true
  end.

Definition Fifo_getNext (fifo : list ptr) : option (ptr * list ptr) :=
  match fifo with
  | [] => None
  | msg :: rest => Some (msg, rest)
  end.

Definition set_mTransportSelector (ts : TransportSelector) (s : SipStack) : SipStack :=
  mkSipStack (mExecutive s) ts (mStateMacFifo s) (mTUFifo s) (mDomains s).

Definition set_mStateMacFifo (fifo : list ptr) (s : SipStack) : SipStack :=
  mkSipStack (mExecutive s) (mTransportSelector s) fifo (mTUFifo s) (mDomains s).

Definition set_mTUFifo (fifo : list ptr) (s : SipStack) : SipStack :=
  mkSipStack (mExecutive s) (mTransportSelector s) (mStateMacFifo s) fifo (mDomains s).

Definition set_mDomains (domains : gset Data) (s : SipStack) : SipStack :=
  mkSipStack (mExecutive s) (mTransportSelector s) (mStateMacFifo s) (mTUFifo s) domains.

Definition InfoLog (line : Data) (st : State) : State :=
  mkState (memory st) (self st) (logged st ++ [line]).

(** [SipStack::SipStack]: the members are constructed from what the
    constructor is given, both fifos and the alias set start empty. *)
Definition SipStack_new (mem : gmap ptr Message) (ex : Executive)
    (ts : TransportSelector) : State :=
  mkState mem (mkSipStack ex ts [] [] ∅) [].

(** [SipStack::addAlias]. *)
Definition addAlias (domain : Data) (st : State) : State :=
  let st := InfoLog ("Adding domain alias: " +:+ domain) st in
  mkState (memory st) (set_mDomains ({[domain]} ∪ mDomains (self st)) (self st)) (logged st).

(** [SipStack::addTransport]. *)
Definition addTransport (protocol : Transport_Type) (port : Z) (hostName nic : Data)
    (st : State) : option State :=
  match TransportSelector_addTransport protocol port hostName nic
          (mTransportSelector (self st)) with
  | None => None
  | Some ts =>
      let st := mkState (memory st) (set_mTransportSelector ts (self st)) (logged st) in
      Some (if negb (Data_empty hostName) then addAlias hostName st else st)
  end.

(** [std::set::count]. *)
Definition set_count (domain : Data) (domains : gset Data) : nat :=
  if decide (domain ∈ domains) then 1 else 0.

(** [SipStack::isMyDomain]. *)
Definition isMyDomain (domain : Data) (st : State) : bool :=
  negb (set_count domain (mDomains (self st)) =? 0).

(** [new SipMessage(msg)]: a copy of the message [m] at an address no
    object lives at. *)
Definition new_SipMessage (m : SipMessage) (mem : gmap ptr Message)
    : ptr * gmap ptr Message :=
  let p := fresh (dom mem) in
  (p, <[p := Sip (SipMessage_copy m)]> mem).

(** A member function of [SipMessage] called through a pointer. *)
Definition call_SipMessage (f : SipMessage → SipMessage) (p : ptr)
    (mem : gmap ptr Message) : gmap ptr Message :=
  alter (λ o, match o with Sip m => Sip (f m) | NotSip x => NotSip x end) p mem.

(** [SipStack::send].  [msg] is the address the reference is bound to; a
    reference is bound to a live [SipMessage], there is no result
    otherwise. *)
Definition send (msg : ptr) (st : State) : option State :=
  match memory st !! msg with
  | Some (Sip m) =>
      let st := InfoLog ("SipStack::Send: " +:+ brief m) st in
      let '(toSend, mem) := new_SipMessage m (memory st) in
      let mem := call_SipMessage setFromTU toSend mem in
      Some (mkState mem
              (set_mStateMacFifo (Fifo_add toSend (mStateMacFifo (self st))) (self st))
              (logged st))
  | _ => None
  end.

(** [SipStack::sendTo]. *)
Definition sendTo (msg : ptr) (uri : Uri) (st : State) : option State :=
  match memory st !! msg with
  | Some (Sip m) =>
      let '(toSend, mem) := new_SipMessage m (memory st) in
      let mem := call_SipMessage (setTarget uri) toSend mem in
      let mem := call_SipMessage setFromTU toSend mem in
      Some (mkState mem
              (set_mStateMacFifo (Fifo_add toSend (mStateMacFifo (self st))) (self st))
              (logged st))
  | _ => None
  end.

(** How a call ends: it returns a value and a state, an [assert] of it
    fails, or it waits for a message that is not there. *)
Inductive Outcome (A : Type) :=
| Returned (a : A) (st : State)
| AssertFailed
| Blocked.
Arguments Returned {A} a st.
Arguments AssertFailed {A}.
Arguments Blocked {A}.

(** [dynamic_cast<SipMessage*>(tmpMsg)]: the pointer itself when the object
    it points to is a [SipMessage], null otherwise. *)
Definition dynamic_cast_SipMessage (mem : gmap ptr Message) (tmpMsg : ptr) : option ptr :=
  match mem !! tmpMsg with
  | Some (Sip _) => Some tmpMsg
  | _ => None
  end.

(** [SipStack::receive]. *)
Definition receive (st : State) : Outcome (option ptr) :=
  if Fifo_messageAvailable (mTUFifo (self st)) then
    match Fifo_getNext (mTUFifo (self st)) with
    | None => Blocked
    | Some (tmpMsg, rest) =>
        let st := mkState (memory st) (set_mTUFifo rest (self st)) (logged st) in
        match dynamic_cast_SipMessage (memory st) tmpMsg with
        | Some sipMsg => Returned (Some sipMsg) st
        | None => AssertFailed
        end
    end
  else Returned None st.

(** [SipStack::getHostname] (a [const] member: the state stays). *)
Definition getHostname (st : State) : Outcome Data :=
  match hostEnt_h_name with
  | Some retHost => Returned retHost st
  | None => AssertFailed
  end.

Context `{!Sip2Executive}.

(** [SipStack::process], [getTimeTillNextProcessMS] and [buildFdSet]. *)
Definition process (fdset : FdSet) (st : State) : State := Executive_process fdset st.

Definition getTimeTillNextProcessMS (st : State) : State * Z :=
  Executive_getTimeTillNextProcessMS st.

Definition buildFdSet (fdset : FdSet) (st : State) : State := Executive_buildFdSet fdset st.

(** The public member functions of [SipStack] as calls of a client. *)
Inductive Call :=
| CallAddTransport (protocol : Transport_Type) (port : Z) (hostName nic : Data)
| CallAddAlias (domain : Data)
| CallGetHostname
| CallIsMyDomain (domain : Data)
| CallSend (msg : ptr)
| CallSendTo (msg : ptr) (uri : Uri)
| CallReceive
| CallProcess (fdset : FdSet)
| CallGetTimeTillNextProcessMS
| CallBuildFdSet (fdset : FdSet).

Definition state_of {A} (o : Outcome A) : option State :=
  match o with
  | Returned _ st => Some st
  | AssertFailed | Blocked => None
  end.

(** The state after one call that returns. *)
Definition step (c : Call) (st : State) : option State :=
  match c with
  | CallAddTransport protocol port hostName nic => addTransport protocol port hostName nic st
  | CallAddAlias domain => Some (addAlias domain st)
  | CallGetHostname => state_of (getHostname st)
  | CallIsMyDomain _ => Some st
  | CallSend msg => send msg st
  | CallSendTo msg uri => sendTo msg uri st
  | CallReceive => state_of (receive st)
  | CallProcess fdset => Some (process fdset st)
  | CallGetTimeTillNextProcessMS => Some (getTimeTillNextProcessMS st).1
  | CallBuildFdSet fdset => Some (buildFdSet fdset st)
  end.

(** The state after a sequence of calls, each of which returns. *)
Fixpoint run (calls : list Call) (st : State) : option State :=
  match calls with
  | [] => Some st
  | c :: calls => st' ← step c st; run calls st'
  end.

(** The call adds [d] to the alias set: [addAlias(d)], or [addTransport]
    with the non-empty host name [d]. *)
Definition adds_alias (d : Data) (c : Call) : Prop :=
  match c with
  | CallAddAlias domain => domain = d
  | CallAddTransport _ _ hostName _ => hostName = d ∧ d ≠ ""
  | _ => False
  end.

(** The invariant [receive] asserts: the oldest message of the TU fifo is a
    [SipMessage]. *)
Definition oldest_is_SipMessage (st : State) : Prop :=
  ∀ tmpMsg rest, mTUFifo (self st) = tmpMsg :: rest →
    ∃ m, memory st !! tmpMsg = Some (Sip m).

(** The same of every message of the TU fifo ("we should only ever have
    SIP messages on the TU Fifo"). *)
Definition only_SipMessages (st : State) : Prop :=
  Forall (λ tmpMsg, ∃ m, memory st !! tmpMsg = Some (Sip m)) (mTUFifo (self st)).

(** A transaction user that polls: [receive()] called [n] times in a row,
    the results in the order of the calls. *)
Fixpoint receive_times (n : nat) (st : State) : Outcome (list (option ptr)) :=
  match n with
  | 0 => Returned [] st
  | S n =>
      match receive st with
      | Returned sipMsg st =>
          match receive_times n st with
          | Returned sipMsgs st => Returned (sipMsg :: sipMsgs) st
          | AssertFailed => AssertFailed
          | Blocked => Blocked
          end
      | AssertFailed => AssertFailed
      | Blocked => Blocked
      end
  end.

(** The calls SipStack.cxx carries out itself: all but the three it hands
    to [mExecutive]. *)
Definition own_call (c : Call) : bool :=
  match c with
  | CallProcess _ | CallGetTimeTillNextProcessMS | CallBuildFdSet _ => false
  | _ => true
  end.

Definition is_send (c : Call) : bool :=
  match c with
  | CallSend _ | CallSendTo _ _ => true
  | _ => false
  end.

Definition is_receive (c : Call) : bool :=
  match c with
  | CallReceive => true
  | _ => false
  end.

(** How many of the calls are [send]s or [sendTo]s, and how many are
    [receive]s. *)
Definition sends (calls : list Call) : nat := length (List.filter is_send calls).

Definition receives (calls : list Call) : nat := length (List.filter is_receive calls).

End SipStack.

Arguments Returned {_ _} _ _.
Arguments AssertFailed {_ _}.
Arguments Blocked {_ _}.

(** A small instance of the parameters, for the examples: a message is its
    text, its target and whether it comes from the transaction user; the
    selector is the list of the transports added, and refuses a port that
    is not positive; the executive does nothing. *)
Record ExampleMessage := mkExampleMessage {
  text : Data;
  target : option Data;
  fromTU : bool;
}.

Definition exampleTypes : Sip2Types := {|
  SipMessage := ExampleMessage;
  OtherMessage := unit;
  Uri := Data;
  Transport_Type := bool;
  FdSet := unit;
  TransportSelector := list (Z * Data);
  Executive := unit;
  SipMessage_copy := λ m, m;
  brief := text;
  setFromTU := λ m, mkExampleMessage (text m) (target m) true;
  setTarget := λ uri m, mkExampleMessage (text m) (Some uri) (fromTU m);
  TransportSelector_addTransport := λ _ port hostName _ ts,
    if (0 <? port)%Z then Some ((port, hostName) :: ts) else None;
  hostEnt_h_name := Some "localhost";
|}.

Definition exampleExecutive : @Sip2Executive exampleTypes := {|
  Executive_process := λ _ st, st;
  Executive_buildFdSet := λ _ st, st;
  Executive_getTimeTillNextProcessMS := λ st, (st, 25%Z);
  Executive_process_mDomains := λ _ _, eq_refl;
  Executive_buildFdSet_mDomains := λ _ _, eq_refl;
  Executive_getTimeTillNextProcessMS_mDomains := λ _, eq_refl;
|}.

Definition invite : @SipMessage exampleTypes :=
  mkExampleMessage "INVITE sip:bob@example" None false.

Definition UDP : @Transport_Type exampleTypes := true.

(** A stack whose TU fifo holds the message at address 1 and then the one
    at address 2. *)
Definition exampleState : @State exampleTypes :=
  @mkState exampleTypes
    {[ 1%positive := @Sip exampleTypes invite; 2%positive := @Sip exampleTypes invite ]}
    (@mkSipStack exampleTypes tt [] [] [1%positive; 2%positive] ∅) [].

(** A stack whose TU fifo holds a message that is no [SipMessage]. *)
Definition strayState : @State exampleTypes :=
  @mkState exampleTypes {[ 1%positive := @NotSip exampleTypes tt ]}
    (@mkSipStack exampleTypes tt [] [] [1%positive] ∅) [].

Definition newStack : @State exampleTypes := @SipStack_new exampleTypes ∅ tt [].

(** [addTransport(UDP, 5060, "example.com")] then [addAlias("alias.org")]. *)
Definition exampleCalls : list (@Call exampleTypes) :=
  [@CallAddTransport exampleTypes UDP 5060 "example.com" "";
   @CallAddAlias exampleTypes "alias.org"].

(** The example stack once "example.com" is an alias, and calls made on it
    afterwards. *)
Definition aliasedState : @State exampleTypes :=
  @addAlias exampleTypes "example.com" exampleState.

Definition laterCalls : list (@Call exampleTypes) :=
  [@CallSend exampleTypes 1%positive; @CallReceive exampleTypes;
   @CallAddAlias exampleTypes "other.net"].

End Vocal2.

(* ================================================================== *)
(** ** ConversationManager.hxx *)
(* ================================================================== *)

Module recon.

(** Modelled from the spec: HandleTypes.hxx is not among the sources;
    conversations and participants are "identified by an opaque 64-bit
    handle". *)
Abbreviation ConversationHandle := N (only parsing).
Abbreviation ParticipantHandle := N (only parsing).

(** [ConversationManager::AutoHoldMode]. *)
Inductive AutoHoldMode :=
| AutoHoldDisabled
| AutoHoldEnabled
| AutoHoldBroadcastOnly.

(** The SIP requests that begin and end the call of a remote
    participant. *)
Inductive Request :=
| INVITE (partHandle : ParticipantHandle)
| BYE (partHandle : ParticipantHandle)
| CANCEL (partHandle : ParticipantHandle).

(** The handler of the header that tells the application of a destroyed
    participant. *)
Inductive Event :=
| onParticipantDestroyed (partHandle : ParticipantHandle).

(** Modelled from the spec: the class [RemoteParticipant] and its dialog
    set are only forward-declared in the header.  The SIP side of a remote
    participant (the legs of its INVITE and the state of each) is a
    parameter, [Session], and so is what ending it sends,
    [Session_end]: by the header's comments on [ParticipantForkSelectMode]
    a BYE to a leg that has established a dialog and a CANCEL for an
    INVITE that was not answered, by the spec a BYE for a connected call
    and a CANCEL "before any final response". *)
Class RemoteParticipants := {
  Session : Type;
  Session_end : ParticipantHandle → Session → list Request;
}.

(** Modelled from the spec: the classes [Conversation] and [Participant]
    are only forward-declared in the header.  A participant is a "variant
    of {Local, Remote, MediaResource}" with "a membership set of
    conversations"; a conversation "holds an ordered set of participant
    handles, an AutoHoldMode". *)
Inductive ParticipantKind `{RemoteParticipants} :=
| Local
| Remote (session : Session)
| MediaResource.

Record Participant `{RemoteParticipants} := mkParticipant {
  kind : ParticipantKind;
  conversations : gset ConversationHandle;
}.
Arguments mkParticipant {_} _ _.

Record Conversation := mkConversation {
  participants : list ParticipantHandle;
  autoHoldMode : AutoHoldMode;
}.

(** The data members of [ConversationManager] ([mConversations],
    [mCurrentConversationHandle], [mParticipants],
    [mCurrentParticipantHandle]), with the requests sent and the handlers
    called so far. *)
Record ConversationManager `{RemoteParticipants} := mkConversationManager {
  mConversations : gmap ConversationHandle Conversation;
  mCurrentConversationHandle : ConversationHandle;
  mParticipants : gmap ParticipantHandle Participant;
  mCurrentParticipantHandle : ParticipantHandle;
  sent : list Request;
  called : list Event;
}.
Arguments mkConversationManager {_} _ _ _ _ _ _.

Section ConversationManager.
Context `{RemoteParticipants}.

(** [getConversation] and [getParticipant]: the object registered under
    the handle, [None] when there is none (a null pointer in the header). *)
Definition getConversation (convHandle : ConversationHandle) (cm : ConversationManager)
    : option Conversation :=
  mConversations cm !! convHandle.

Definition getParticipant (partHandle : ParticipantHandle) (cm : ConversationManager)
    : option Participant :=
  mParticipants cm !! partHandle.

Definition set_mConversations (convs : gmap ConversationHandle Conversation)
    (cm : ConversationManager) : ConversationManager :=
  mkConversationManager convs (mCurrentConversationHandle cm) (mParticipants cm)
    (mCurrentParticipantHandle cm) (sent cm) (called cm).

Definition set_mParticipants (parts : gmap ParticipantHandle Participant)
    (cm : ConversationManager) : ConversationManager :=
  mkConversationManager (mConversations cm) (mCurrentConversationHandle cm) parts
    (mCurrentParticipantHandle cm) (sent cm) (called cm).

(** The requests are sent, in order. *)
Definition send (requests : list Request) (cm : ConversationManager) : ConversationManager :=
  mkConversationManager (mConversations cm) (mCurrentConversationHandle cm)
    (mParticipants cm) (mCurrentParticipantHandle cm) (sent cm ++ requests) (called cm).

Definition call (e : Event) (cm : ConversationManager) : ConversationManager :=
  mkConversationManager (mConversations cm) (mCurrentConversationHandle cm)
    (mParticipants cm) (mCurrentParticipantHandle cm) (sent cm) (called cm ++ [e]).

(** The conversation without the participant. *)
Definition without (partHandle : ParticipantHandle) (conv : Conversation) : Conversation :=
  mkConversation (filter (λ p, p ≠ partHandle) (participants conv)) (autoHoldMode conv).

(** Modelled from the spec: the body of [destroyParticipant]
    (ConversationManager.cxx) is not among the sources.  It "ends
    connections to the participant and removes it from all active
    conversations" (the header's comment): the participant leaves every
    conversation, the session of a remote participant is ended with the
    requests that takes, the handle is unregistered and the application is
    told.  A handle that is not registered names nothing to destroy. *)
Definition destroyParticipant (partHandle : ParticipantHandle) (cm : ConversationManager)
    : ConversationManager :=
  match mParticipants cm !! partHandle with
  | None => cm
  | Some part =>
      let cm := set_mConversations (without partHandle <$> mConversations cm) cm in
      let cm := match kind part with
                | Remote session => send (Session_end partHandle session) cm
                | _ => cm
                end in
      call (onParticipantDestroyed partHandle)
        (set_mParticipants (delete partHandle (mParticipants cm)) cm)
  end.

End ConversationManager.

(** An instance for the examples: the session of a remote participant is
    whether its INVITE was answered; a call that was is ended with a BYE,
    one that was not with a CANCEL. *)
Definition exampleSessions : RemoteParticipants := {|
  Session := bool;
  Session_end := λ partHandle answered,
    [if answered then BYE partHandle else CANCEL partHandle];
|}.

(** A manager for the examples: conversation 1 holds the remote
    participant 1, whose call was answered, the local participant 2 and
    the remote participant 3, whose call was not. *)
Definition exampleManager : @ConversationManager exampleSessions :=
  @mkConversationManager exampleSessions
    {[ 1%N := mkConversation [1%N; 2%N; 3%N] AutoHoldEnabled ]} 2
    {[ 1%N := @mkParticipant exampleSessions (@Remote exampleSessions true) {[ 1%N ]};
       2%N := @mkParticipant exampleSessions (@Local exampleSessions) {[ 1%N ]};
       3%N := @mkParticipant exampleSessions (@Remote exampleSessions false) {[ 1%N ]} ]} 4
    [INVITE 1; INVITE 3] [].

End recon.

(* ================================================================== *)
(** ** GagConduit.cxx *)
(* ================================================================== *)

Module gag.

(** What GagConduit.cxx uses of [Uri] and [Data]: a [Uri] is the key of a
    [std::map], [Data::from] turns a [Uri], a pointer to one or an [int]
    into text, [user()] is read from one [Uri] and assigned to a
    default-constructed one, and [Uri("sip:dummy@dummy.xx")] is built. *)
Class Uris := {
  Uri : Type;
  Uri_eq_dec :: EqDecision Uri;
  Uri_countable :: Countable Uri;
  Data_from_Uri : Uri → Data;
  Data_from_pointer : Uri → Data;
  Data_from_int : Z → Data;
  user : Uri → Data;
  Uri_of_user : Data → Uri;
  dummy : Uri;
}.

(** The messages exchanged with gaim, by [getMessageType()]; [OTHER] is a
    type the [switch] of [handleMessage] has no case for. *)
Inductive GagMessage `{Uris} :=
| IM (from to : Uri) (im : Data)
| PRESENCE (aor : Uri) (available : bool) (status : Data)
| HELLO
| LOGIN (aor : Uri) (userid password : Data)
| LOGOUT (aor : Uri)
| ADD_BUDDY (us them : Uri)
| REMOVE_BUDDY (us them : Uri)
| SHUTDOWN
| GAG_ERROR (error : Data)
| LOGIN_STATUS (success : bool) (code : Z) (message : Data)
| OTHER (type : Z).

(** A [TuIM] (TuIM.hxx is not among the sources) is what it was constructed
    with and the member functions called on it since, oldest first. *)
Inductive TuCall `{Uris} :=
| sendPage (text : Data) (dest : Uri) (sign : bool) (encryptFor : Data)
| setMyPresence (open : bool) (status : Data)
| addBuddy (them : Uri) (group : Data)
| removeBuddy (them : Uri)
| setUAName (name : Data)
| registerAor (aor : Uri) (password : Data)
| TuIM_process.

Record TuIM `{Uris} := mkTuIM {
  tu_aor : Uri;
  tu_contact : Uri;
  tu_calls : list TuCall;
}.
Arguments mkTuIM {_} _ _ _.

(** The members of [GagConduit] ([tuIM], [udpPort], [running]), the [TuIM]
    objects in memory by address, and what was serialized to [cout]. *)
Record GagConduit `{Uris} := mkGagConduit {
  tuIM : gmap Uri ptr;
  udpPort : Z;
  running : bool;
  objects : gmap ptr TuIM;
  cout : list GagMessage;
}.
Arguments mkGagConduit {_} _ _ _ _ _.

Section GagConduit.
Context `{Uris}.

(** [GagConduit::GagConduit]. *)
Definition GagConduit_new (_udpPort : Z) : GagConduit :=
  mkGagConduit ∅ _udpPort true ∅ [].

(** [m.serialize(cout)]. *)
Definition serialize (m : GagMessage) (g : GagConduit) : GagConduit :=
  mkGagConduit (tuIM g) (udpPort g) (running g) (objects g) (cout g ++ [m]).

(** A member function of [TuIM] called through the pointer. *)
Definition call_TuIM (c : TuCall) (tu : ptr) (g : GagConduit) : GagConduit :=
  mkGagConduit (tuIM g) (udpPort g) (running g)
    (alter (λ o, mkTuIM (tu_aor o) (tu_contact o) (tu_calls o ++ [c])) tu (objects g))
    (cout g).

(** [GagConduit::getTu]: the entry of the user, null ([end()]) with an
    error written when there is none. *)
Definition getTu (aor : Uri) (g : GagConduit) : option ptr * GagConduit :=
  match tuIM g !! aor with
  | Some tu => (Some tu, g)
  | None => (None, serialize (GAG_ERROR ("You are not logged in as " +:+ Data_from_Uri aor)) g)
  end.

(** [GagConduit::gaimIm], [gaimPresence], [gaimAddBuddy] and
    [gaimRemoveBuddy]: one call on the [TuIM] of the user, when there is
    one. *)
Definition with_Tu (aor : Uri) (c : TuCall) (g : GagConduit) : GagConduit :=
  match getTu aor g with
  | (Some tu, g) => call_TuIM c tu g
  | (None, g) => g
  end.

Definition gaimIm (from to : Uri) (im : Data) : GagConduit → GagConduit :=
  with_Tu from (sendPage im to false "").

Definition gaimPresence (aor : Uri) (online : bool) (status : Data)
    : GagConduit → GagConduit :=
  with_Tu aor (setMyPresence online status).

Definition gaimAddBuddy (us them : Uri) : GagConduit → GagConduit :=
  with_Tu us (addBuddy them "").

Definition gaimRemoveBuddy (us them : Uri) : GagConduit → GagConduit :=
  with_Tu us (removeBuddy them).

(** [GagConduit::gaimHello], [gaimError] and [gaimLoginStatus] do nothing
    to the conduit. *)
Definition gaimHello (g : GagConduit) : GagConduit := g.
Definition gaimError (g : GagConduit) : GagConduit := g.
Definition gaimLoginStatus (g : GagConduit) : GagConduit := g.

(** [GagConduit::gaimLogin].  The error for a user that is logged in
    already prints the pointer [aor], and the function goes on; [new] is
    taken to succeed, [userid] is not used. *)
Definition gaimLogin (aor : Uri) (userid password : Data) (g : GagConduit) : GagConduit :=
  let g := match tuIM g !! aor with
           | Some _ =>
               serialize (GAG_ERROR ("You are already logged in as "
                                     +:+ Data_from_pointer aor)) g
           | None => g
           end in
  let contact := Uri_of_user (user aor) in
  let newTu := fresh (dom (objects g)) in
  let g := mkGagConduit (tuIM g) (udpPort g) (running g)
             (<[newTu := mkTuIM aor contact []]> (objects g)) (cout g) in
  let g := call_TuIM (setUAName "gag/0.0.1 (gaim)") newTu g in
  let g := call_TuIM (registerAor aor password) newTu g in
  mkGagConduit (<[aor := newTu]> (tuIM g)) (udpPort g) (running g) (objects g) (cout g).

(** [GagConduit::gaimLogout]. *)
Definition gaimLogout (aor : Uri) (g : GagConduit) : GagConduit :=
  match getTu aor g with
  | (None, g) => g
  | (Some tu, g) =>
      mkGagConduit (delete aor (tuIM g)) (udpPort g) (running g)
        (delete tu (objects g)) (cout g)
  end.

(** [GagConduit::removeAllUsers].  With no user the loop does not run.
    With one, it erases the element and then increments the iterator that
    the erasure made invalid: the behaviour is undefined ([None]). *)
Definition removeAllUsers (g : GagConduit) : option GagConduit :=
  if decide (tuIM g = ∅) then Some g else None.

(** [GagConduit::gaimShutdown]. *)
Definition gaimShutdown (g : GagConduit) : option GagConduit :=
  removeAllUsers (mkGagConduit (tuIM g) (udpPort g) false (objects g) (cout g)).

(** [GagConduit::handleMessage]. *)
Definition handleMessage (message : GagMessage) (g : GagConduit) : option GagConduit :=
  match message with
  | IM from to im => Some (gaimIm from to im g)
  | PRESENCE aor available status => Some (gaimPresence aor available status g)
  | HELLO => Some (gaimHello g)
  | LOGIN aor userid password => Some (gaimLogin aor userid password g)
  | LOGOUT aor => Some (gaimLogout aor g)
  | ADD_BUDDY us them => Some (gaimAddBuddy us them g)
  | REMOVE_BUDDY us them => Some (gaimRemoveBuddy us them g)
  | SHUTDOWN => gaimShutdown g
  | GAG_ERROR _ => Some (gaimError g)
  | LOGIN_STATUS _ _ _ => Some (gaimLoginStatus g)
  | OTHER _ => Some g
  end.

(** [GagConduit::process]: every [TuIM] of the map is processed. *)
Definition process (g : GagConduit) : GagConduit :=
  foldr (λ entry g, call_TuIM TuIM_process entry.2 g) g (map_to_list (tuIM g)).

(** A [TuIM] after one more call on it. *)
Definition TuIM_called (c : TuCall) (o : TuIM) : TuIM :=
  mkTuIM (tu_aor o) (tu_contact o) (tu_calls o ++ [c]).

(** The callbacks of the [TuIM]s: each serializes one message. *)
Definition presenceUpdate (dest : Uri) (open : bool) (status : Data) : GagConduit → GagConduit :=
  serialize (PRESENCE dest open status).

Definition receivedPage (msg : Data) (from : Uri) : GagConduit → GagConduit :=
  serialize (IM from dummy msg).

Definition sendPageFailed (dest : Uri) (respNumber : Z) : GagConduit → GagConduit :=
  serialize (GAG_ERROR ("Could not send IM to " +:+ Data_from_Uri dest +:+ " ("
                        +:+ Data_from_int respNumber +:+ ")")).

Definition registrationFailed (uri : Uri) (respNumber : Z) : GagConduit → GagConduit :=
  serialize (LOGIN_STATUS false respNumber
               ("Could not register as " +:+ Data_from_Uri uri +:+ " ("
                +:+ Data_from_int respNumber +:+ ")")).

Definition registrationWorked (dest : Uri) : GagConduit → GagConduit :=
  serialize (LOGIN_STATUS true 200 "Okay").

Definition receivePageFailed (sender : Uri) : GagConduit → GagConduit :=
  serialize (GAG_ERROR ("Could not get IM from " +:+ Data_from_Uri sender)).

(** What happens to a conduit: gaim sends it a message, the main loop calls
    [process], or a [TuIM] calls one of the six callbacks. *)
Inductive Event :=
| Gaim (message : GagMessage)
| Process
| PresenceUpdate (dest : Uri) (open : bool) (status : Data)
| ReceivedPage (msg : Data) (from : Uri)
| SendPageFailed (dest : Uri) (respNumber : Z)
| RegistrationFailed (uri : Uri) (respNumber : Z)
| RegistrationWorked (dest : Uri)
| ReceivePageFailed (sender : Uri).

(** The conduit after one event, when the call returns. *)
Definition react (e : Event) (g : GagConduit) : option GagConduit :=
  match e with
  | Gaim message => handleMessage message g
  | Process => Some (process g)
  | PresenceUpdate dest open status => Some (presenceUpdate dest open status g)
  | ReceivedPage msg from => Some (receivedPage msg from g)
  | SendPageFailed dest respNumber => Some (sendPageFailed dest respNumber g)
  | RegistrationFailed uri respNumber => Some (registrationFailed uri respNumber g)
  | RegistrationWorked dest => Some (registrationWorked dest g)
  | ReceivePageFailed sender => Some (receivePageFailed sender g)
  end.

(** The conduit after a sequence of events, each call returning. *)
Fixpoint react_all (events : list Event) (g : GagConduit) : option GagConduit :=
  match events with
  | [] => Some g
  | e :: events => g' ← react e g; react_all events g'
  end.

(** Every entry of [tuIM] points to a [TuIM] that is allocated, and no two
    users share one. *)
Definition tuIM_ok (g : GagConduit) : Prop :=
  (∀ aor tu, tuIM g !! aor = Some tu → tu ∈ dom (objects g)) ∧
  (∀ aor1 aor2 tu, tuIM g !! aor1 = Some tu → tuIM g !! aor2 = Some tu → aor1 = aor2).

(** The [TuIM] at [tu] is allocated and no entry of [tuIM] points to it. *)
Definition leaked (tu : ptr) (g : GagConduit) : Prop :=
  tu ∈ dom (objects g) ∧ ∀ aor, tuIM g !! aor ≠ Some tu.

(** The user a message of gaim acts for: the one [getTu] or [tuIM.find] is
    called with. *)
Definition subject (message : GagMessage) : option Uri :=
  match message with
  | IM from _ _ => Some from
  | PRESENCE aor _ _ | LOGIN aor _ _ | LOGOUT aor => Some aor
  | ADD_BUDDY us _ | REMOVE_BUDDY us _ => Some us
  | _ => None
  end.

(** Whether [aor] is logged in after an event that is no [SHUTDOWN], given
    whether it was before: its [LOGIN] and its [LOGOUT] decide. *)
Definition logs (aor : Uri) (e : Event) (before : bool) : bool :=
  match e with
  | Gaim (LOGIN a _ _) => if decide (a = aor) then true else before
  | Gaim (LOGOUT a) => if decide (a = aor) then false else before
  | _ => before
  end.

Definition logged_in_after (aor : Uri) (events : list Event) (before : bool) : bool :=
  fold_left (λ b e, logs aor e b) events before.

End GagConduit.

(** An instance for the examples: a [Uri] is its text. *)
Definition exampleUris : Uris := {|
  Uri := Data;
  Data_from_Uri := λ uri, uri;
  Data_from_pointer := λ _, "0x7ffd5e8";
  Data_from_int := λ _, "500";
  user := λ uri, uri;
  Uri_of_user := λ u, u;
  dummy := "sip:dummy@dummy.xx";
|}.

Definition alice : @Uri exampleUris := "sip:alice@example".
Definition bob : @Uri exampleUris := "sip:bob@example".

(** Alice has logged in. *)
Definition aliceLoggedIn : @GagConduit exampleUris :=
  @gaimLogin exampleUris alice "alice" "secret" (@GagConduit_new exampleUris 5060).

(** A session: Alice logs in and writes to Bob, the loop runs, a page of
    Bob arrives, Bob logs in, Alice logs out. *)
Definition exampleEvents : list (@Event exampleUris) :=
  [@Gaim exampleUris (@LOGIN exampleUris alice "alice" "secret");
   @Gaim exampleUris (@IM exampleUris alice bob "hi");
   @Process exampleUris;
   @ReceivedPage exampleUris "hello" bob;
   @Gaim exampleUris (@LOGIN exampleUris bob "bob" "pw");
   @Gaim exampleUris (@LOGOUT exampleUris alice)].

(** Alice and Bob have logged in. *)
Definition bothLoggedIn : @GagConduit exampleUris :=
  @gaimLogin exampleUris bob "bob" "pw" aliceLoggedIn.

(** A session that ends: Alice logs in and out, gaim sends [SHUTDOWN], and
    a page still arrives. *)
Definition shutdownEvents : list (@Event exampleUris) :=
  [@Gaim exampleUris (@LOGIN exampleUris alice "alice" "secret");
   @Gaim exampleUris (@LOGOUT exampleUris alice);
   @Gaim exampleUris (@SHUTDOWN exampleUris);
   @ReceivedPage exampleUris "hello" bob].

(** The conduit after it: stopped, nobody logged in, the page written. *)
Definition afterShutdown : @GagConduit exampleUris :=
  @mkGagConduit exampleUris ∅ 5060 false ∅ [@IM exampleUris bob (@dummy exampleUris) "hello"].

(** The conduit after the session. *)
Definition afterEvents : @GagConduit exampleUris :=
  @gaimLogout exampleUris alice
    (@gaimLogin exampleUris bob "bob" "pw"
       (@receivedPage exampleUris "hello" bob
          (@process exampleUris (@gaimIm exampleUris alice bob "hi" aliceLoggedIn)))).

End gag.

(* ================================================================== *)
(** * Properties *)
(* ================================================================== *)

(** ** SipStack.cxx *)

Section SipStackFacts.
Import Vocal2.
Context `{Sip2Executive}.

Lemma Data_empty_true (d : Data) : Data_empty d = true ↔ d = "".
Proof. destruct d; simpl; split; congruence. Qed.

Lemma isMyDomain_mDomains (d : Data) (st : State) :
  isMyDomain d st = true ↔ d ∈ mDomains (self st).
Proof.
  unfold isMyDomain, set_count.
  destruct (decide (d ∈ mDomains (self st))); simpl; split; intros; done.
Qed.

Lemma addAlias_mDomains (domain d : Data) (st : State) :
  d ∈ mDomains (self (addAlias domain st)) ↔ d ∈ mDomains (self st) ∨ domain = d.
Proof. simpl. set_solver. Qed.

Lemma send_self (msg : ptr) (st st' : State) :
  send msg st = Some st' →
  self st' = set_mStateMacFifo (mStateMacFifo (self st) ++ [fresh (dom (memory st))]) (self st).
Proof.
  unfold send. destruct (memory st !! msg) as [[m|o]|]; [|done..].
  intros [= <-]. reflexivity.
Qed.

Lemma sendTo_self (msg : ptr) (uri : Uri) (st st' : State) :
  sendTo msg uri st = Some st' →
  self st' = set_mStateMacFifo (mStateMacFifo (self st) ++ [fresh (dom (memory st))]) (self st).
Proof.
  unfold sendTo. destruct (memory st !! msg) as [[m|o]|]; [|done..].
  intros [= <-]. reflexivity.
Qed.

Lemma receive_mDomains (st st' : State) :
  state_of (receive st) = Some st' → mDomains (self st') = mDomains (self st).
Proof.
  unfold receive. destruct (mTUFifo (self st)) as [|p rest]; simpl.
  - by intros [= <-].
  - destruct (dynamic_cast_SipMessage (memory st) p); simpl; [|done].
    by intros [= <-].
Qed.

(** One call that returns adds to the alias set what [adds_alias] tells,
    and nothing else. *)
Lemma step_mDomains (c : Call) (d : Data) (st st' : State) :
  step c st = Some st' →
  d ∈ mDomains (self st') ↔ d ∈ mDomains (self st) ∨ adds_alias d c.
Proof.
  destruct c as [protocol port hostName nic|domain| |domain|msg|msg uri| |fdset| |fdset];
    simpl; intros Hstep.
  - unfold addTransport in Hstep.
    destruct (TransportSelector_addTransport _ _ _ _ _) as [ts|]; [|done].
    injection Hstep as <-.
    destruct (Data_empty hostName) eqn:Hempty; simpl.
    + apply Data_empty_true in Hempty. subst hostName. naive_solver.
    + assert (hostName ≠ "") by (intros ->; done). set_solver.
  - injection Hstep as <-. apply addAlias_mDomains.
  - unfold getHostname in Hstep. destruct hostEnt_h_name; simplify_eq/=. tauto.
  - simplify_eq. tauto.
  - rewrite (send_self _ _ _ Hstep). simpl. tauto.
  - rewrite (sendTo_self _ _ _ _ Hstep). simpl. tauto.
  - rewrite (receive_mDomains _ _ Hstep). tauto.
  - simplify_eq. unfold process. rewrite Executive_process_mDomains. tauto.
  - simplify_eq. unfold getTimeTillNextProcessMS.
    rewrite Executive_getTimeTillNextProcessMS_mDomains. tauto.
  - simplify_eq. unfold buildFdSet. rewrite Executive_buildFdSet_mDomains. tauto.
Qed.

Lemma run_mDomains (calls : list Call) (d : Data) (st st' : State) :
  run calls st = Some st' →
  d ∈ mDomains (self st') ↔ d ∈ mDomains (self st) ∨ Exists (adds_alias d) calls.
Proof.
  revert st. induction calls as [|c calls IH]; simpl; intros st Hrun.
  - simplify_eq. rewrite Exists_nil. tauto.
  - destruct (step c st) as [st1|] eqn:Hstep; simpl in Hrun; [|done].
    rewrite (IH _ Hrun), (step_mDomains _ d _ _ Hstep), Exists_cons. tauto.
Qed.

(** C6.  On a stack that was constructed and then driven by any sequence
    of calls that returned, [isMyDomain(d)] is true exactly when one of
    those calls was [addAlias(d)] or an [addTransport] whose [hostName] is
    [d] and [d] is not empty. *)
Theorem isMyDomain_iff_alias_added (calls : list Call) (mem : gmap ptr Message)
    (ex : Executive) (ts : TransportSelector) (st : State) (d : Data) :
  run calls (SipStack_new mem ex ts) = Some st →
  isMyDomain d st = true ↔ Exists (adds_alias d) calls.
Proof.
  intros Hrun. rewrite isMyDomain_mDomains, (run_mDomains _ d _ _ Hrun). simpl.
  set_solver.
Qed.

Lemma new_SipMessage_fresh (m : SipMessage) (mem : gmap ptr Message) :
  (new_SipMessage m mem).1 ∉ dom mem.
Proof. apply is_fresh. Qed.

(** What [send] computes on a live [SipMessage]. *)
Lemma send_result (msg : ptr) (m : SipMessage) (st : State) :
  memory st !! msg = Some (Sip m) →
  send msg st
  = Some (mkState
            (<[fresh (dom (memory st)) := Sip (setFromTU (SipMessage_copy m))]> (memory st))
            (set_mStateMacFifo (mStateMacFifo (self st) ++ [fresh (dom (memory st))])
               (self st))
            (logged st ++ ["SipStack::Send: " +:+ brief m])).
Proof.
  intros Hmsg. unfold send. rewrite Hmsg. simpl.
  unfold call_SipMessage. by rewrite alter_insert_eq.
Qed.

(** An object that existed is not the one an insertion at a fresh address
    writes. *)
Lemma lookup_insert_fresh (mem : gmap ptr Message) (o : Message) (p : ptr) :
  p ∈ dom mem → <[fresh (dom mem) := o]> mem !! p = mem !! p.
Proof.
  intros Hp. apply lookup_insert_ne. intros <-. by apply (is_fresh (dom mem)).
Qed.

(** C9.  [send(msg)], called with a reference to a live [SipMessage],
    returns; the object [msg] refers to is the same afterwards, and so is
    every other object that existed; the one new object, at an address
    nothing lived at, is the copy of the message with [setFromTU] applied,
    and its address is appended to the state-machine fifo; the rest of the
    stack is untouched. *)
Theorem send_leaves_its_argument (msg : ptr) (m : SipMessage) (st : State) :
  memory st !! msg = Some (Sip m) →
  ∃ toSend st',
    send msg st = Some st' ∧
    (toSend ∉ dom (memory st)) ∧
    memory st' !! msg = Some (Sip m) ∧
    (∀ p, p ∈ dom (memory st) → memory st' !! p = memory st !! p) ∧
    memory st' = (<[toSend := Sip (setFromTU (SipMessage_copy m))]> (memory st)) ∧
    mStateMacFifo (self st') = mStateMacFifo (self st) ++ [toSend] ∧
    mTUFifo (self st') = mTUFifo (self st) ∧
    mDomains (self st') = mDomains (self st) ∧
    mTransportSelector (self st') = mTransportSelector (self st) ∧
    mExecutive (self st') = mExecutive (self st).
Proof.
  intros Hmsg. exists (fresh (dom (memory st))). eexists.
  split; [by apply send_result|]. simpl. split_and!; try done.
  - apply is_fresh.
  - rewrite lookup_insert_fresh; [done|]. apply elem_of_dom. eauto.
  - intros p Hp. by apply lookup_insert_fresh.
Qed.

(** C10.  [receive()] returns the null pointer and leaves the state alone
    when the TU fifo is empty; when the oldest queued message is a
    [SipMessage], it returns that message and takes it off the TU fifo, and
    nothing else of the state changes; when the oldest queued message is
    not a [SipMessage], the [assert] of [receive] fails and the call does
    not return; it never waits. *)
Theorem receive_polls_the_TU_fifo (st : State) :
  (mTUFifo (self st) = [] → receive st = Returned None st) ∧
  (∀ sipMsg rest,
     mTUFifo (self st) = sipMsg :: rest → oldest_is_SipMessage st →
     ∃ st',
       receive st = Returned (Some sipMsg) st' ∧
       mTUFifo (self st') = rest ∧
       mStateMacFifo (self st') = mStateMacFifo (self st) ∧
       mDomains (self st') = mDomains (self st) ∧
       mTransportSelector (self st') = mTransportSelector (self st) ∧
       mExecutive (self st') = mExecutive (self st) ∧
       memory st' = memory st ∧
       logged st' = logged st) ∧
  receive st ≠ Blocked ∧
  (∀ tmpMsg rest,
     mTUFifo (self st) = tmpMsg :: rest →
     (∀ m, memory st !! tmpMsg ≠ Some (Sip m)) →
     receive st = AssertFailed).
Proof.
  unfold receive. split_and!.
  - intros ->. reflexivity.
  - intros sipMsg rest Hfifo Hsip. rewrite Hfifo. simpl.
    destruct (Hsip _ _ Hfifo) as [m Hm].
    unfold dynamic_cast_SipMessage. rewrite Hm.
    eexists. split; [reflexivity|]. simpl. done.
  - destruct (mTUFifo (self st)) as [|p rest]; simpl; [done|].
    by destruct (dynamic_cast_SipMessage (memory st) p).
  - intros tmpMsg rest Hfifo Hnot. rewrite Hfifo. simpl.
    unfold dynamic_cast_SipMessage.
    destruct (memory st !! tmpMsg) as [[m|o]|] eqn:Hm; try done.
    by destruct (Hnot m).
Qed.

(** [sendTo(msg, uri)], called with a reference to a live [SipMessage],
    returns; the object [msg] refers to and every other object that existed
    are the same afterwards; the new object, at an address nothing lived at,
    is the copy of the message with [setTarget(uri)] and then [setFromTU]
    applied, and its address is appended to the state-machine fifo; nothing
    is logged and the rest of the stack is untouched. *)
Theorem sendTo_leaves_its_argument (msg : ptr) (uri : Uri) (m : SipMessage) (st : State) :
  memory st !! msg = Some (Sip m) →
  ∃ toSend st',
    sendTo msg uri st = Some st' ∧
    (toSend ∉ dom (memory st)) ∧
    memory st' !! msg = Some (Sip m) ∧
    (∀ p, p ∈ dom (memory st) → memory st' !! p = memory st !! p) ∧
    memory st'
    = (<[toSend := Sip (setFromTU (setTarget uri (SipMessage_copy m)))]> (memory st)) ∧
    self st' = set_mStateMacFifo (mStateMacFifo (self st) ++ [toSend]) (self st) ∧
    logged st' = logged st.
Proof.
  intros Hmsg.
  pose proof (new_SipMessage_fresh m (memory st)) as Hfresh. simpl in Hfresh.
  set (toSend := fresh (dom (memory st))) in *.
  assert (Hmem : call_SipMessage setFromTU toSend
                   (call_SipMessage (setTarget uri) toSend
                      (<[toSend := Sip (SipMessage_copy m)]> (memory st)))
                 = <[toSend := Sip (setFromTU (setTarget uri (SipMessage_copy m)))]>
                     (memory st)).
  { unfold call_SipMessage. by rewrite !alter_insert_eq. }
  assert (Hother : ∀ p, p ∈ dom (memory st) →
            <[toSend := Sip (setFromTU (setTarget uri (SipMessage_copy m)))]> (memory st) !! p
            = memory st !! p).
  { intros p Hp. apply lookup_insert_ne. intros ->. done. }
  eexists toSend, _. split.
  { unfold sendTo. rewrite Hmsg. simpl. fold toSend. rewrite Hmem. reflexivity. }
  simpl. split_and!; try done.
  rewrite Hother; [done|]. apply elem_of_dom. eauto.
Qed.

(** No call takes a domain out of the alias set: once [isMyDomain(d)] is
    true it stays true over every sequence of calls that return. *)
Theorem isMyDomain_stays_true (calls : list Call) (d : Data) (st st' : State) :
  run calls st = Some st' →
  isMyDomain d st = true →
  isMyDomain d st' = true.
Proof.
  intros Hrun. rewrite !isMyDomain_mDomains, (run_mDomains _ d _ _ Hrun). tauto.
Qed.

(** Two [send]s in a row queue their copies in the order of the calls,
    behind what was queued, at two different addresses at which nothing was
    allocated before; the two copies are marked, and the callers' messages
    and every other object that existed are the same afterwards. *)
Theorem send_twice_in_order (msg1 msg2 : ptr) (m1 m2 : SipMessage) (st : State) :
  memory st !! msg1 = Some (Sip m1) →
  memory st !! msg2 = Some (Sip m2) →
  ∃ toSend1 toSend2 st',
    (st1 ← send msg1 st; send msg2 st1) = Some st' ∧
    toSend1 ≠ toSend2 ∧
    (toSend1 ∉ dom (memory st)) ∧
    (toSend2 ∉ dom (memory st)) ∧
    mStateMacFifo (self st') = mStateMacFifo (self st) ++ [toSend1; toSend2] ∧
    memory st' !! toSend1 = Some (Sip (setFromTU (SipMessage_copy m1))) ∧
    memory st' !! toSend2 = Some (Sip (setFromTU (SipMessage_copy m2))) ∧
    memory st' !! msg1 = Some (Sip m1) ∧
    memory st' !! msg2 = Some (Sip m2) ∧
    (∀ p, p ∈ dom (memory st) → memory st' !! p = memory st !! p) ∧
    dom (memory st') = {[toSend1; toSend2]} ∪ dom (memory st).
Proof.
  intros H1 H2.
  set (p1 := fresh (dom (memory st))).
  set (mem1 := <[p1 := Sip (setFromTU (SipMessage_copy m1))]> (memory st)).
  set (p2 := fresh (dom mem1)).
  assert (Hp1 : mem1 !! p1 = Some (Sip (setFromTU (SipMessage_copy m1))))
    by apply lookup_insert_eq.
  assert (Hin1 : p1 ∈ dom mem1) by (apply elem_of_dom; eauto).
  assert (Hfresh1 : p1 ∉ dom (memory st)) by apply is_fresh.
  assert (Hfresh2 : p2 ∉ dom mem1) by apply is_fresh.
  assert (Hdom1 : dom mem1 = {[p1]} ∪ dom (memory st)) by apply dom_insert_L.
  assert (Hold : ∀ p, p ∈ dom (memory st) →
            <[p2 := Sip (setFromTU (SipMessage_copy m2))]> mem1 !! p = memory st !! p).
  { intros p Hp. unfold p2. rewrite lookup_insert_fresh by set_solver.
    unfold mem1, p1. by rewrite lookup_insert_fresh. }
  assert (H2' : mem1 !! msg2 = Some (Sip m2)).
  { unfold mem1, p1. rewrite lookup_insert_fresh; [done|]. apply elem_of_dom. eauto. }
  set (st1 := mkState mem1 (set_mStateMacFifo (mStateMacFifo (self st) ++ [p1]) (self st))
                (logged st ++ ["SipStack::Send: " +:+ brief m1])).
  exists p1, p2. eexists. split.
  { rewrite (send_result msg1 m1 st H1). fold p1 mem1 st1. simpl.
    rewrite (send_result msg2 m2 st1 H2'). reflexivity. }
  simpl. fold p2. split_and!.
  - intros Heq. apply Hfresh2. by rewrite <-Heq.
  - done.
  - set_solver.
  - by rewrite <-app_assoc.
  - unfold p2. by rewrite lookup_insert_fresh.
  - apply lookup_insert_eq.
  - rewrite Hold; [done|]. apply elem_of_dom. eauto.
  - rewrite Hold; [done|]. apply elem_of_dom. eauto.
  - exact Hold.
  - rewrite dom_insert_L, Hdom1. set_solver.
Qed.

(** [receive] on an empty TU fifo. *)
Lemma receive_empty (st : State) :
  mTUFifo (self st) = [] → receive st = Returned None st.
Proof. unfold receive. by intros ->. Qed.

(** Polling an empty TU fifo gives nulls and changes nothing. *)
Lemma receive_times_empty (k : nat) (st : State) :
  mTUFifo (self st) = [] → receive_times k st = Returned (replicate k None) st.
Proof.
  intros Hfifo. induction k as [|k IH]; simpl; [done|].
  by rewrite (receive_empty _ Hfifo), IH.
Qed.

(** A transaction user that polls [receive()] gets the messages of the TU
    fifo in the order they were queued, and null from then on; the fifo is
    empty afterwards and nothing else of the state has changed.  Every
    queued message is a [SipMessage], as [receive] asserts. *)
Theorem receive_drains_the_TU_fifo (k : nat) (st : State) :
  only_SipMessages st →
  receive_times (length (mTUFifo (self st)) + k) st
  = Returned ((Some <$> mTUFifo (self st)) ++ replicate k None)
      (mkState (memory st) (set_mTUFifo [] (self st)) (logged st)).
Proof.
  remember (mTUFifo (self st)) as fifo eqn:Hfifo. symmetry in Hfifo.
  revert st Hfifo. induction fifo as [|p rest IH]; intros st Hfifo Hsip.
  - simpl. rewrite (receive_times_empty _ _ Hfifo).
    destruct st as [mem [ex ts smf tuf doms] lg]. simpl in *. by subst.
  - unfold only_SipMessages in Hsip. rewrite Hfifo in Hsip.
    apply Forall_cons in Hsip as [[m Hm] Hrest].
    cbn [length Nat.add receive_times]. unfold receive at 1. rewrite Hfifo. simpl.
    unfold dynamic_cast_SipMessage. rewrite Hm.
    rewrite (IH (mkState (memory st) (set_mTUFifo rest (self st)) (logged st)));
      [done|done|done].
Qed.

(** [send] and [receive] work on different fifos: [receive] returns the
    same message whether [send(msg)] was called before it or not, and the
    two calls leave the same state in either order. *)
Theorem send_and_receive_commute (msg : ptr) (m : SipMessage) (st : State) :
  memory st !! msg = Some (Sip m) →
  oldest_is_SipMessage st →
  ∃ sipMsg st1 st2 st',
    send msg st = Some st1 ∧
    receive st = Returned sipMsg st2 ∧
    receive st1 = Returned sipMsg st' ∧
    send msg st2 = Some st'.
Proof.
  intros Hmsg Hsip.
  destruct (mTUFifo (self st)) as [|p rest] eqn:Hfifo.
  - exists None. eexists _, st, _. split_and!.
    + by apply send_result.
    + by apply receive_empty.
    + by apply receive_empty.
    + by apply send_result.
  - destruct (Hsip _ _ Hfifo) as [mp Hp].
    exists (Some p). eexists _, (mkState (memory st) (set_mTUFifo rest (self st)) (logged st)), _.
    split_and!.
    + by apply send_result.
    + unfold receive. rewrite Hfifo. simpl. unfold dynamic_cast_SipMessage. by rewrite Hp.
    + unfold receive. simpl. rewrite Hfifo. simpl. unfold dynamic_cast_SipMessage.
      rewrite lookup_insert_fresh by (apply elem_of_dom; eauto). rewrite Hp. reflexivity.
    + by rewrite (send_result msg m).
Qed.

(** What [sendTo] computes on a live [SipMessage]. *)
Lemma sendTo_result (msg : ptr) (uri : Uri) (m : SipMessage) (st : State) :
  memory st !! msg = Some (Sip m) →
  sendTo msg uri st
  = Some (mkState
            (<[fresh (dom (memory st)) := Sip (setFromTU (setTarget uri (SipMessage_copy m)))]>
               (memory st))
            (set_mStateMacFifo (mStateMacFifo (self st) ++ [fresh (dom (memory st))])
               (self st))
            (logged st)).
Proof.
  intros Hmsg. unfold sendTo. rewrite Hmsg. simpl.
  unfold call_SipMessage. by rewrite !alter_insert_eq.
Qed.

(** An allocation keeps every object that existed. *)
Lemma insert_fresh_subseteq (mem : gmap ptr Message) (o : Message) :
  mem ⊆ <[fresh (dom mem) := o]> mem.
Proof. apply insert_subseteq, not_elem_of_dom, is_fresh. Qed.

(** One call that SipStack.cxx carries out itself: what it does to the two
    fifos and to the memory. *)
Lemma step_own_call (c : Call) (st st' : State) :
  step c st = Some st' →
  own_call c →
  mTUFifo (self st') = drop (receives [c]) (mTUFifo (self st)) ∧
  memory st ⊆ memory st' ∧
  ∃ sent,
    mStateMacFifo (self st') = mStateMacFifo (self st) ++ sent ∧
    length sent = sends [c] ∧
    NoDup sent ∧
    ∀ p, p ∈ sent → (p ∉ dom (memory st)) ∧ ∃ m, memory st' !! p = Some (Sip (setFromTU m)).
Proof.
  assert (Hnone : ∀ st : State,
            ∃ sent : list ptr,
              mStateMacFifo (self st) = mStateMacFifo (self st) ++ sent ∧
              length sent = 0 ∧ NoDup sent ∧
              ∀ p, p ∈ sent →
                   (p ∉ dom (memory st)) ∧ ∃ m, memory st !! p = Some (Sip (setFromTU m))).
  { intros s. exists []. rewrite app_nil_r. split_and!; [done|done|constructor|].
    intros p Hp. by apply elem_of_nil in Hp. }
  assert (Hone : ∀ (mem : gmap ptr Message) (m : SipMessage) (fifo : list ptr),
            ∃ sent : list ptr,
              fifo ++ [fresh (dom mem)] = fifo ++ sent ∧
              length sent = 1 ∧ NoDup sent ∧
              ∀ p, p ∈ sent →
                   (p ∉ dom mem) ∧
                   ∃ m', <[fresh (dom mem) := Sip (setFromTU m)]> mem !! p
                         = Some (Sip (setFromTU m'))).
  { intros mem m fifo. exists [fresh (dom mem)]. split_and!; [done|done|apply NoDup_singleton|].
    intros p ->%list_elem_of_singleton. split; [apply is_fresh|].
    exists m. apply lookup_insert_eq. }
  destruct c as [protocol port hostName nic|domain| |domain|msg|msg uri| |fdset| |fdset];
    simpl; intros Hstep Hown; try done.
  - unfold addTransport in Hstep.
    destruct (TransportSelector_addTransport _ _ _ _ _) as [ts|]; [|done].
    injection Hstep as <-.
    destruct (Data_empty hostName); simpl; (split_and!; [done|done|apply (Hnone st)]).
  - injection Hstep as <-. simpl. split_and!; [done|done|apply (Hnone st)].
  - unfold getHostname in Hstep. destruct hostEnt_h_name; simplify_eq/=.
    split_and!; [done|done|apply Hnone].
  - simplify_eq. split_and!; [done|done|apply Hnone].
  - destruct (memory st !! msg) as [[m|o]|] eqn:Hmsg;
      [|by (unfold send in Hstep; rewrite Hmsg in Hstep)..].
    rewrite (send_result msg m st Hmsg) in Hstep. injection Hstep as <-. simpl.
    split_and!; [done|apply insert_fresh_subseteq|apply Hone].
  - destruct (memory st !! msg) as [[m|o]|] eqn:Hmsg;
      [|by (unfold sendTo in Hstep; rewrite Hmsg in Hstep)..].
    rewrite (sendTo_result msg uri m st Hmsg) in Hstep. injection Hstep as <-. simpl.
    split_and!; [done|apply insert_fresh_subseteq|apply Hone].
  - unfold receive in Hstep. destruct (mTUFifo (self st)) as [|p rest] eqn:Hfifo; simpl in *.
    + injection Hstep as <-. rewrite Hfifo. split_and!; [done|done|apply Hnone].
    + destruct (dynamic_cast_SipMessage (memory st) p); simpl in Hstep; [|done].
      injection Hstep as <-. simpl. split_and!; [done|done|apply (Hnone st)].
Qed.

(** The same of a sequence of such calls, by induction: the addresses
    queued by a later [send] are fresh for a memory that holds those queued
    before. *)
Lemma run_own_calls (calls : list Call) (st st' : State) :
  run calls st = Some st' →
  Forall own_call calls →
  mTUFifo (self st') = drop (receives calls) (mTUFifo (self st)) ∧
  memory st ⊆ memory st' ∧
  ∃ sent,
    mStateMacFifo (self st') = mStateMacFifo (self st) ++ sent ∧
    length sent = sends calls ∧
    NoDup sent ∧
    ∀ p, p ∈ sent → (p ∉ dom (memory st)) ∧ ∃ m, memory st' !! p = Some (Sip (setFromTU m)).
Proof.
  revert st. induction calls as [|c calls IH]; intros st Hrun Hown.
  - simpl in Hrun. injection Hrun as <-. split_and!; [done|done|].
    exists []. rewrite app_nil_r. split_and!; [done|done|constructor|].
    intros p Hp. by apply elem_of_nil in Hp.
  - simpl in Hrun. destruct (step c st) as [st1|] eqn:Hstep; simpl in Hrun; [|done].
    apply Forall_cons in Hown as [Hc Hcalls].
    destruct (step_own_call _ _ _ Hstep Hc) as (Htu1 & Hmem1 & sent1 & Hsm1 & Hlen1 & Hnd1 & Hs1).
    destruct (IH _ Hrun Hcalls) as (Htu2 & Hmem2 & sent2 & Hsm2 & Hlen2 & Hnd2 & Hs2).
    split_and!.
    + rewrite Htu2, Htu1, drop_drop. f_equal. unfold receives. simpl.
      destruct (is_receive c); simpl; lia.
    + by etrans.
    + exists (sent1 ++ sent2). split_and!.
      * by rewrite Hsm2, Hsm1, <-app_assoc.
      * rewrite length_app, Hlen1, Hlen2. unfold sends. simpl.
        destruct (is_send c); simpl; lia.
      * apply NoDup_app. split_and!; [done| |done].
        intros p Hp1 Hp2. destruct (Hs1 _ Hp1) as [_ [m Hm]].
        destruct (Hs2 _ Hp2) as [Hfresh _]. apply Hfresh, elem_of_dom. eauto.
      * intros p [Hp|Hp]%elem_of_app.
        -- destruct (Hs1 _ Hp) as [Hfresh [m Hm]]. split; [done|].
           exists m. by eapply lookup_weaken.
        -- destruct (Hs2 _ Hp) as [Hfresh Hm]. split; [|done].
           intros Hin. apply Hfresh. apply elem_of_dom in Hin as [o Ho].
           apply elem_of_dom. exists o. by eapply lookup_weaken.
Qed.

(** Over calls that SipStack.cxx carries out itself (all but [process],
    [getTimeTillNextProcessMS] and [buildFdSet]), the two fifos change by
    the [send]s and the [receive]s only: the TU fifo has lost as many of
    its oldest messages as there were [receive]s (all of them, when there
    were more calls than messages), and the state-machine fifo still
    starts with what it held and is longer by the number of [send]s and
    [sendTo]s. *)
Theorem fifos_account_for_the_calls (calls : list Call) (st st' : State) :
  run calls st = Some st' →
  Forall own_call calls →
  mTUFifo (self st') = drop (receives calls) (mTUFifo (self st)) ∧
  take (length (mStateMacFifo (self st))) (mStateMacFifo (self st')) = mStateMacFifo (self st) ∧
  length (mStateMacFifo (self st')) = length (mStateMacFifo (self st)) + sends calls.
Proof.
  intros Hrun Hown.
  destruct (run_own_calls _ _ _ Hrun Hown) as (Htu & _ & sent & Hsm & Hlen & _).
  split_and!.
  - done.
  - by rewrite Hsm, take_app_length.
  - by rewrite Hsm, length_app, Hlen.
Qed.

(** Over such calls no object that existed is freed or written, and what
    the state-machine fifo has gained are the addresses of distinct new
    objects, each a [SipMessage] on which [setFromTU] was called last. *)
Theorem queued_messages_are_marked_copies (calls : list Call) (st st' : State) :
  run calls st = Some st' →
  Forall own_call calls →
  memory st ⊆ memory st' ∧
  ∃ sent,
    mStateMacFifo (self st') = mStateMacFifo (self st) ++ sent ∧
    NoDup sent ∧
    ∀ p, p ∈ sent → (p ∉ dom (memory st)) ∧ ∃ m, memory st' !! p = Some (Sip (setFromTU m)).
Proof.
  intros Hrun Hown.
  destruct (run_own_calls _ _ _ Hrun Hown) as (_ & Hmem & sent & Hsm & _ & Hnd & Hsent).
  split; [done|]. by exists sent.
Qed.

End SipStackFacts.

(** *** Examples on the instance [exampleTypes] *)

Section SipStackExamples.
Import Vocal2.
Existing Instances exampleTypes exampleExecutive.

(** After [exampleCalls] "example.com" is a domain of the stack. *)
Lemma isMyDomain_iff_alias_added_witness :
  ∃ st,
    run exampleCalls newStack = Some st ∧
    (isMyDomain "example.com" st = true ↔
     Exists (adds_alias "example.com") exampleCalls).
Proof.
  eexists. split; [reflexivity|].
  apply (isMyDomain_iff_alias_added exampleCalls ∅ tt []). reflexivity.
Defined.

Lemma send_leaves_its_argument_witness :
  memory exampleState !! 1%positive = Some (Sip invite) ∧
  ∃ toSend st',
    send 1%positive exampleState = Some st' ∧
    (toSend ∉ dom (memory exampleState)) ∧
    memory st' !! 1%positive = Some (Sip invite) ∧
    (∀ p, p ∈ dom (memory exampleState) → memory st' !! p = memory exampleState !! p) ∧
    memory st' = (<[toSend := Sip (setFromTU (SipMessage_copy invite))]> (memory exampleState)) ∧
    mStateMacFifo (self st') = mStateMacFifo (self exampleState) ++ [toSend] ∧
    mTUFifo (self st') = mTUFifo (self exampleState) ∧
    mDomains (self st') = mDomains (self exampleState) ∧
    mTransportSelector (self st') = mTransportSelector (self exampleState) ∧
    mExecutive (self st') = mExecutive (self exampleState).
Proof.
  split; [reflexivity|].
  apply (send_leaves_its_argument 1%positive invite exampleState). reflexivity.
Defined.

Lemma receive_polls_the_TU_fifo_witness :
  mTUFifo (self exampleState) = [1%positive; 2%positive] ∧
  oldest_is_SipMessage exampleState ∧
  ∃ st',
    receive exampleState = Returned (Some 1%positive) st' ∧
    mTUFifo (self st') = [2%positive] ∧
    mStateMacFifo (self st') = mStateMacFifo (self exampleState) ∧
    mDomains (self st') = mDomains (self exampleState) ∧
    mTransportSelector (self st') = mTransportSelector (self exampleState) ∧
    mExecutive (self st') = mExecutive (self exampleState) ∧
    memory st' = memory exampleState ∧
    logged st' = logged exampleState.
Proof.
  assert (Hsip : oldest_is_SipMessage exampleState).
  { intros tmpMsg rest [= <- <-]. exists invite. reflexivity. }
  split; [reflexivity|]. split; [exact Hsip|].
  exact (proj1 (proj2 (receive_polls_the_TU_fifo exampleState))
           1%positive [2%positive] eq_refl Hsip).
Defined.

Lemma sendTo_leaves_its_argument_witness :
  memory exampleState !! 2%positive = Some (Sip invite) ∧
  ∃ toSend st',
    sendTo 2%positive "sip:proxy.example" exampleState = Some st' ∧
    memory st' !! 2%positive = Some (Sip invite) ∧
    memory st' !! toSend
    = Some (Sip (mkExampleMessage "INVITE sip:bob@example" (Some "sip:proxy.example") true)) ∧
    mStateMacFifo (self st') = [toSend] ∧
    logged st' = logged exampleState.
Proof.
  assert (Hmsg : memory exampleState !! 2%positive = Some (Sip invite)) by reflexivity.
  destruct (sendTo_leaves_its_argument 2%positive ("sip:proxy.example" : @Uri exampleTypes)
              invite exampleState Hmsg)
    as (toSend & st' & Hsend & _ & Hkept & _ & Hmem & Hself & Hlog).
  split; [exact Hmsg|]. exists toSend, st'. split_and!.
  - exact Hsend.
  - exact Hkept.
  - rewrite Hmem. apply lookup_insert_eq.
  - rewrite Hself. reflexivity.
  - exact Hlog.
Defined.

Lemma isMyDomain_stays_true_witness :
  isMyDomain "example.com" aliasedState = true ∧
  ∃ st',
    run laterCalls aliasedState = Some st' ∧
    isMyDomain "example.com" st' = true.
Proof.
  assert (Hbefore : isMyDomain "example.com" aliasedState = true) by reflexivity.
  split; [exact Hbefore|].
  destruct (run laterCalls aliasedState) as [st'|] eqn:Hrun; [|discriminate Hrun].
  exists st'. split; [reflexivity|].
  exact (isMyDomain_stays_true laterCalls "example.com" aliasedState st' Hrun Hbefore).
Defined.

Lemma send_twice_in_order_witness :
  memory exampleState !! 1%positive = Some (Sip invite) ∧
  memory exampleState !! 2%positive = Some (Sip invite) ∧
  ∃ toSend1 toSend2 st',
    (st1 ← send 1%positive exampleState; send 2%positive st1) = Some st' ∧
    toSend1 ≠ toSend2 ∧
    (toSend1 ∉ dom (memory exampleState)) ∧
    (toSend2 ∉ dom (memory exampleState)) ∧
    mStateMacFifo (self st') = [toSend1; toSend2] ∧
    memory st' !! 1%positive = Some (Sip invite) ∧
    memory st' !! 2%positive = Some (Sip invite).
Proof.
  assert (H1 : memory exampleState !! 1%positive = Some (Sip invite)) by reflexivity.
  assert (H2 : memory exampleState !! 2%positive = Some (Sip invite)) by reflexivity.
  destruct (send_twice_in_order 1%positive 2%positive invite invite exampleState H1 H2)
    as (p1 & p2 & st' & Hrun & Hne & Hf1 & Hf2 & Hfifo & _ & _ & Hk1 & Hk2 & _).
  split; [exact H1|]. split; [exact H2|].
  exists p1, p2, st'.
  split_and!; [exact Hrun|exact Hne|exact Hf1|exact Hf2|exact Hfifo|exact Hk1|exact Hk2].
Defined.

(** C10, as stated.  The TU fifo of [strayState] is not empty, and
    [receive()] does not return its oldest message: the message is no
    [SipMessage], the [assert] fails and the call returns nothing. *)
Lemma receive_aborts_on_a_stray_message :
  mTUFifo (self strayState) = [1%positive] ∧
  memory strayState !! 1%positive = Some (NotSip tt) ∧
  receive strayState = AssertFailed ∧
  ¬ ∃ sipMsg st', receive strayState = Returned sipMsg st'.
Proof.
  split_and!; [reflexivity..|].
  intros (sipMsg & st' & Hreceive). discriminate Hreceive.
Qed.

(** The domain is unknown to a stack that only added another one. *)
Example isMyDomain_other :
  (st ← run [CallAddAlias "alias.org"] newStack;
   Some (isMyDomain "example.com" st, isMyDomain "alias.org" st)) = Some (false, true).
Proof. reflexivity. Qed.

(** [addTransport] with an empty host name adds no alias. *)
Example addTransport_empty_hostName :
  (st ← run [CallAddTransport UDP 5060 "" ""] newStack;
   Some (isMyDomain "" st)) = Some false.
Proof. reflexivity. Qed.

(** The message that [send] queues is the copy marked as coming from the
    transaction user; the caller's message is not marked. *)
Example send_marks_the_copy :
  (st ← send 1%positive exampleState;
   Some (memory st !! 1%positive, memory st !! 3%positive, mStateMacFifo (self st)))
  = Some (Some (Sip invite),
          Some (Sip (mkExampleMessage "INVITE sip:bob@example" None true)),
          [3%positive]).
Proof. reflexivity. Qed.

Lemma receive_drains_the_TU_fifo_witness :
  only_SipMessages exampleState ∧
  receive_times 3 exampleState
  = Returned [Some 1%positive; Some 2%positive; None]
      (mkState (memory exampleState) (set_mTUFifo [] (self exampleState))
         (logged exampleState)).
Proof.
  assert (Hsip : only_SipMessages exampleState).
  { repeat constructor; exists invite; reflexivity. }
  split; [exact Hsip|]. exact (receive_drains_the_TU_fifo 1 exampleState Hsip).
Defined.

Lemma send_and_receive_commute_witness :
  memory exampleState !! 1%positive = Some (Sip invite) ∧
  oldest_is_SipMessage exampleState ∧
  ∃ sipMsg st1 st2 st',
    send 1%positive exampleState = Some st1 ∧
    receive exampleState = Returned sipMsg st2 ∧
    receive st1 = Returned sipMsg st' ∧
    send 1%positive st2 = Some st'.
Proof.
  assert (Hmsg : memory exampleState !! 1%positive = Some (Sip invite)) by reflexivity.
  assert (Hsip : oldest_is_SipMessage exampleState).
  { intros tmpMsg rest [= <- <-]. exists invite. reflexivity. }
  split; [exact Hmsg|]. split; [exact Hsip|].
  exact (send_and_receive_commute 1%positive invite exampleState Hmsg Hsip).
Defined.

Lemma fifos_account_for_the_calls_witness :
  Forall own_call laterCalls ∧
  ∃ st',
    run laterCalls aliasedState = Some st' ∧
    mTUFifo (self st') = [2%positive] ∧
    length (mStateMacFifo (self st')) = 1.
Proof.
  assert (Hown : Forall own_call laterCalls) by (repeat constructor).
  split; [exact Hown|].
  destruct (run laterCalls aliasedState) as [st'|] eqn:Hrun; [|discriminate Hrun].
  exists st'. split; [reflexivity|].
  destruct (fifos_account_for_the_calls laterCalls aliasedState st' Hrun Hown)
    as (Htu & _ & Hlen).
  split; [exact Htu|exact Hlen].
Defined.

Lemma queued_messages_are_marked_copies_witness :
  Forall own_call laterCalls ∧
  ∃ st',
    run laterCalls aliasedState = Some st' ∧
    memory aliasedState ⊆ memory st' ∧
    ∃ sent,
      mStateMacFifo (self st') = sent ∧
      NoDup sent ∧
      ∀ p, p ∈ sent →
        (p ∉ dom (memory aliasedState)) ∧ ∃ m, memory st' !! p = Some (Sip (setFromTU m)).
Proof.
  assert (Hown : Forall own_call laterCalls) by (repeat constructor).
  split; [exact Hown|].
  destruct (run laterCalls aliasedState) as [st'|] eqn:Hrun; [|discriminate Hrun].
  exists st'. split; [reflexivity|].
  exact (queued_messages_are_marked_copies laterCalls aliasedState st' Hrun Hown).
Defined.

End SipStackExamples.

(** ** ConversationManager.hxx *)

Section ConversationManagerFacts.
Import recon.
Context `{RemoteParticipants}.
Implicit Types (cm : ConversationManager) (p q : ParticipantHandle).

Lemma destroyParticipant_unregistered p cm :
  mParticipants cm !! p = None → destroyParticipant p cm = cm.
Proof. unfold destroyParticipant. by intros ->. Qed.

Lemma destroyParticipant_lookup p q cm :
  mParticipants (destroyParticipant p cm) !! q
  = if decide (p = q) then None else mParticipants cm !! q.
Proof.
  unfold destroyParticipant.
  destruct (mParticipants cm !! p) as [part|] eqn:Hp.
  - assert (Hin : ∀ cm0, mParticipants
                (match kind part with
                 | Remote session => send (Session_end p session) cm0
                 | _ => cm0
                 end)
              = mParticipants cm0) by (intros; by destruct (kind part)).
    simpl. rewrite Hin. simpl. apply lookup_delete.
  - destruct (decide (p = q)) as [->|]; done.
Qed.

(** C8.  A second [destroyParticipant(h)] after a first one is a no-op: the
    state, and with it the list of the requests sent and of the handlers
    called, is the one the first call left. *)
Theorem destroyParticipant_idempotent p cm :
  destroyParticipant p (destroyParticipant p cm) = destroyParticipant p cm.
Proof.
  apply destroyParticipant_unregistered.
  rewrite destroyParticipant_lookup. by rewrite decide_True.
Qed.

End ConversationManagerFacts.

Section ConversationManagerExamples.
Import recon.
Existing Instance exampleSessions.

(** The remote participant whose call was answered is destroyed twice: one
    BYE, one call of the handler, and it has left the conversation. *)
Example destroyParticipant_example :
  let cm := destroyParticipant 1 (destroyParticipant 1 exampleManager) in
  (sent cm, called cm, participants <$> getConversation 1 cm, getParticipant 1 cm)
  = ([INVITE 1; INVITE 3; BYE 1], [onParticipantDestroyed 1], Some [2%N; 3%N], None).
Proof. vm_compute. reflexivity. Qed.

(** The one whose call was not answered: one CANCEL. *)
Example destroyParticipant_unanswered :
  sent (destroyParticipant 3 (destroyParticipant 3 exampleManager))
  = [INVITE 1; INVITE 3; CANCEL 3].
Proof. vm_compute. reflexivity. Qed.

End ConversationManagerExamples.

(** ** GagConduit.cxx *)

Section GagConduitFacts.
Import gag.
Context `{Uris}.

(** A [LOGOUT] of a user that is logged in takes the user off the map and
    deletes its [TuIM]; the other users keep theirs and nothing is written.
    A [LOGOUT] of a user that is not logged in changes neither the map nor
    the objects and writes the error "You are not logged in as" the
    user. *)
Theorem handleMessage_LOGOUT (aor : Uri) (g : GagConduit) :
  ∃ g',
    handleMessage (LOGOUT aor) g = Some g' ∧
    running g' = running g ∧
    match tuIM g !! aor with
    | Some tu =>
        tuIM g' !! aor = None ∧
        (∀ other, other ≠ aor → tuIM g' !! other = tuIM g !! other) ∧
        objects g' = delete tu (objects g) ∧
        cout g' = cout g
    | None =>
        tuIM g' = tuIM g ∧
        objects g' = objects g ∧
        cout g' = cout g ++ [GAG_ERROR ("You are not logged in as " +:+ Data_from_Uri aor)]
    end.
Proof.
  eexists. split; [reflexivity|]. unfold gaimLogout, getTu.
  destruct (tuIM g !! aor) as [tu|] eqn:Haor; simpl.
  - split_and!; try done.
    + apply lookup_delete_eq.
    + intros other Hne. by apply lookup_delete_ne.
  - done.
Qed.

(** A message, a presence or a buddy of a user that is not logged in only
    writes the error: no [TuIM] is created, called or deleted. *)
Theorem not_logged_in_only_writes_the_error (aor other : Uri) (text : Data) (flag : bool)
    (g : GagConduit) (message : GagMessage) :
  tuIM g !! aor = None →
  message ∈ [IM aor other text; PRESENCE aor flag text; ADD_BUDDY aor other;
             REMOVE_BUDDY aor other] →
  handleMessage message g
  = Some (serialize (GAG_ERROR ("You are not logged in as " +:+ Data_from_Uri aor)) g).
Proof.
  intros Haor Hin.
  repeat (apply elem_of_cons in Hin as [->|Hin]);
    [..|by apply elem_of_nil in Hin];
    simpl; unfold gaimIm, gaimPresence, gaimAddBuddy, gaimRemoveBuddy, with_Tu, getTu;
    by rewrite Haor.
Qed.

(** After a [LOGIN] the user is mapped to a [TuIM] made for it at an
    address nothing lived at, named "gag/0.0.1 (gaim)" and registered with
    the password; the other users keep their entries and every object that
    existed stays as it was, the former [TuIM] of the user included. *)
Theorem handleMessage_LOGIN (aor : Uri) (userid password : Data) (g : GagConduit) :
  ∃ newTu g',
    handleMessage (LOGIN aor userid password) g = Some g' ∧
    (newTu ∉ dom (objects g)) ∧
    tuIM g' !! aor = Some newTu ∧
    objects g' !! newTu
    = Some (mkTuIM aor (Uri_of_user (user aor))
              [setUAName "gag/0.0.1 (gaim)"; registerAor aor password]) ∧
    (∀ other, other ≠ aor → tuIM g' !! other = tuIM g !! other) ∧
    (∀ tu, tu ∈ dom (objects g) → objects g' !! tu = objects g !! tu).
Proof.
  assert (Hdom : ∀ m : GagMessage, objects (serialize m g) = objects g) by done.
  set (g1 := match tuIM g !! aor with
             | Some _ => serialize (GAG_ERROR ("You are already logged in as "
                                               +:+ Data_from_pointer aor)) g
             | None => g
             end).
  assert (Hobj : objects g1 = objects g) by (unfold g1; by destruct (tuIM g !! aor)).
  assert (Htu : tuIM g1 = tuIM g) by (unfold g1; by destruct (tuIM g !! aor)).
  exists (fresh (dom (objects g))). eexists. split; [reflexivity|].
  unfold gaimLogin. fold g1. simpl. rewrite Hobj, Htu.
  pose proof (is_fresh (dom (objects g))) as Hfresh.
  split_and!.
  - done.
  - apply lookup_insert_eq.
  - rewrite !alter_insert_eq. rewrite lookup_insert_eq. done.
  - intros other Hne. by apply lookup_insert_ne.
  - intros tu Htudom. rewrite !alter_insert_eq. apply lookup_insert_ne.
    intros <-. done.
Qed.

(** A [LOGIN] of a user that was not logged in followed by its [LOGOUT]
    gives back the map, the objects and the output. *)
Theorem LOGIN_then_LOGOUT (aor : Uri) (userid password : Data) (g : GagConduit) :
  tuIM g !! aor = None →
  (g1 ← handleMessage (LOGIN aor userid password) g; handleMessage (LOGOUT aor) g1)
  = Some g.
Proof.
  intros Haor. simpl. f_equal.
  unfold gaimLogout, getTu, gaimLogin. rewrite Haor. simpl.
  rewrite lookup_insert_eq. simpl.
  rewrite !alter_insert_eq, !delete_insert_eq.
  rewrite delete_id by done.
  rewrite delete_id by (apply not_elem_of_dom, is_fresh).
  by destruct g.
Qed.

(** [getTu] and the error of [gaimLogin] only write. *)
Lemma getTu_result (aor : Uri) (g : GagConduit) :
  (getTu aor g).1 = tuIM g !! aor ∧
  tuIM (getTu aor g).2 = tuIM g ∧
  objects (getTu aor g).2 = objects g ∧
  running (getTu aor g).2 = running g.
Proof. unfold getTu. by destruct (tuIM g !! aor). Qed.

(** What a message of gaim does to the map and to the objects. *)
Lemma with_Tu_result (aor : Uri) (c : TuCall) (g : GagConduit) :
  tuIM (with_Tu aor c g) = tuIM g ∧
  running (with_Tu aor c g) = running g ∧
  objects (with_Tu aor c g)
  = match tuIM g !! aor with
    | Some tu => alter (TuIM_called c) tu (objects g)
    | None => objects g
    end.
Proof. unfold with_Tu, getTu. by destruct (tuIM g !! aor). Qed.

Lemma gaimLogin_result (aor : Uri) (userid password : Data) (g : GagConduit) :
  tuIM (gaimLogin aor userid password g) = <[aor := fresh (dom (objects g))]> (tuIM g) ∧
  running (gaimLogin aor userid password g) = running g ∧
  objects (gaimLogin aor userid password g)
  = <[fresh (dom (objects g)) :=
        mkTuIM aor (Uri_of_user (user aor))
          [setUAName "gag/0.0.1 (gaim)"; registerAor aor password]]> (objects g).
Proof.
  unfold gaimLogin. destruct (tuIM g !! aor); simpl; by rewrite !alter_insert_eq.
Qed.

Lemma gaimLogout_result (aor : Uri) (g : GagConduit) :
  tuIM (gaimLogout aor g) = delete aor (tuIM g) ∧
  running (gaimLogout aor g) = running g ∧
  objects (gaimLogout aor g)
  = match tuIM g !! aor with
    | Some tu => delete tu (objects g)
    | None => objects g
    end.
Proof.
  unfold gaimLogout, getTu. destruct (tuIM g !! aor) eqn:Haor; simpl; [done|].
  by rewrite delete_id.
Qed.

Lemma gaimShutdown_result (g g' : GagConduit) :
  gaimShutdown g = Some g' →
  tuIM g = ∅ ∧ tuIM g' = tuIM g ∧ objects g' = objects g ∧ running g' = false.
Proof.
  unfold gaimShutdown, removeAllUsers. simpl.
  destruct (decide (tuIM g = ∅)); [|done]. by intros [= <-].
Qed.

(** The loop of [process] writes the objects only. *)
Lemma foldr_call_TuIM (c : TuCall) (entries : list (Uri * ptr)) (g : GagConduit) :
  foldr (λ entry g, call_TuIM c entry.2 g) g entries
  = mkGagConduit (tuIM g) (udpPort g) (running g)
      (foldr (alter (TuIM_called c)) (objects g) (entries.*2)) (cout g).
Proof.
  induction entries as [|entry entries IH]; simpl; [by destruct g|].
  by rewrite IH.
Qed.

Lemma process_result (g : GagConduit) :
  process g
  = mkGagConduit (tuIM g) (udpPort g) (running g)
      (foldr (alter (TuIM_called TuIM_process)) (objects g) ((map_to_list (tuIM g)).*2))
      (cout g).
Proof. apply foldr_call_TuIM. Qed.

Lemma dom_foldr_alter (f : TuIM → TuIM) (tus : list ptr) (objs : gmap ptr TuIM) :
  dom (foldr (alter f) objs tus) = dom objs.
Proof. induction tus as [|tu tus IH]; simpl; [done|]. by rewrite dom_alter_L. Qed.

(** A loop that calls through each pointer of a list without repeats
    reaches each object of the list once and no other. *)
Lemma lookup_foldr_alter (f : TuIM → TuIM) (tus : list ptr) (objs : gmap ptr TuIM) (tu : ptr) :
  NoDup tus →
  foldr (alter f) objs tus !! tu
  = if decide (tu ∈ tus) then f <$> objs !! tu else objs !! tu.
Proof.
  induction 1 as [|tu' tus Hnotin Hnodup IH]; simpl.
  - done.
  - destruct (decide (tu = tu')) as [->|Hne].
    + rewrite lookup_alter_eq, IH. repeat case_decide; try done.
      exfalso. set_solver.
    + rewrite lookup_alter_ne by done. rewrite IH.
      repeat case_decide; try done; exfalso; set_solver.
Qed.

Lemma tuIM_ok_new (port : Z) : tuIM_ok (GagConduit_new port).
Proof. split; simpl; intros *; by rewrite lookup_empty. Qed.

(** [tuIM_ok] depends on the map and on which objects are allocated. *)
Lemma tuIM_ok_eq (g g' : GagConduit) :
  tuIM g' = tuIM g → dom (objects g') = dom (objects g) → tuIM_ok g → tuIM_ok g'.
Proof. unfold tuIM_ok. intros -> ->. done. Qed.

(** A message of gaim keeps [tuIM_ok]: the [TuIM] of a [LOGIN] is at an
    address of its own, and the one a [LOGOUT] deletes is no other user's. *)
Lemma handleMessage_tuIM_ok (message : GagMessage) (g g' : GagConduit) :
  handleMessage message g = Some g' → tuIM_ok g → tuIM_ok g'.
Proof.
  assert (Hwith : ∀ aor c, tuIM_ok g → tuIM_ok (with_Tu aor c g)).
  { intros aor c. destruct (with_Tu_result aor c g) as (Htu & _ & Hobj).
    apply tuIM_ok_eq; [done|]. rewrite Hobj.
    destruct (tuIM g !! aor); [apply dom_alter_L|done]. }
  intros Hm [Hlive Hdistinct].
  destruct message; simpl in Hm; try (injection Hm as <-);
    try (by apply Hwith); try done.
  - destruct (gaimLogin_result aor userid password g) as (Htu & _ & Hobj).
    pose proof (is_fresh (dom (objects g))) as Hfresh.
    split.
    + intros a tu. rewrite Htu, Hobj, dom_insert_L.
      intros [[-> <-]|[Hne Ha]]%lookup_insert_Some; [set_solver|].
      apply Hlive in Ha. set_solver.
    + intros a1 a2 tu. rewrite Htu.
      intros [[-> <-]|[Hne1 Ha1]]%lookup_insert_Some [[-> Heq]|[Hne2 Ha2]]%lookup_insert_Some;
        simplify_eq; try done.
      * by apply Hlive in Ha2.
      * by apply Hlive in Ha1.
      * by eapply Hdistinct.
  - destruct (gaimLogout_result aor g) as (Htu & _ & Hobj).
    split.
    + intros a tu. rewrite Htu, Hobj.
      intros [Hne Ha]%lookup_delete_Some.
      destruct (tuIM g !! aor) as [tu'|] eqn:Haor; [|by eapply Hlive].
      rewrite dom_delete_L. apply elem_of_difference. split; [by eapply Hlive|].
      intros ->%elem_of_singleton. apply Hne. by eapply Hdistinct.
    + intros a1 a2 tu. rewrite Htu.
      intros [_ Ha1]%lookup_delete_Some [_ Ha2]%lookup_delete_Some. by eapply Hdistinct.
  - apply gaimShutdown_result in Hm as (_ & Htu & Hobj & _).
    apply (tuIM_ok_eq g); [done|by rewrite Hobj|done].
Qed.

Lemma react_tuIM_ok (e : Event) (g g' : GagConduit) :
  react e g = Some g' → tuIM_ok g → tuIM_ok g'.
Proof.
  destruct e; simpl; try (by intros [= <-]).
  - apply handleMessage_tuIM_ok.
  - intros [= <-]. rewrite process_result. apply tuIM_ok_eq; [done|].
    simpl. apply dom_foldr_alter.
Qed.

Lemma react_all_tuIM_ok (events : list Event) (g g' : GagConduit) :
  react_all events g = Some g' → tuIM_ok g → tuIM_ok g'.
Proof.
  revert g. induction events as [|e events IH]; simpl; intros g Hrun Hok.
  - by injection Hrun as <-.
  - destruct (react e g) as [g1|] eqn:He; simpl in Hrun; [|done].
    eapply IH; [done|]. by eapply react_tuIM_ok.
Qed.

(** Whatever gaim sends, however often [process] runs and whichever
    callbacks the [TuIM]s make, as long as each call returns: every entry
    of [tuIM] points to a [TuIM] that is allocated, and no two users share
    one. *)
Theorem tuIM_entries_stay_live_and_distinct (events : list Event) (port : Z) (g : GagConduit) :
  react_all events (GagConduit_new port) = Some g →
  tuIM_ok g.
Proof. intros Hrun. eapply react_all_tuIM_ok; [done|]. apply tuIM_ok_new. Qed.


(** What one event does to the map, whatever the objects. *)
Lemma react_tuIM (e : Event) (g g' : GagConduit) :
  react e g = Some g' →
  tuIM g'
  = match e with
    | Gaim (LOGIN aor _ _) => <[aor := fresh (dom (objects g))]> (tuIM g)
    | Gaim (LOGOUT aor) => delete aor (tuIM g)
    | _ => tuIM g
    end.
Proof.
  destruct e as [message| | | | | | |]; simpl; try (by intros [= <-]).
  - destruct message; simpl; intros Hm; try (injection Hm as <-);
      try apply with_Tu_result; try done.
    + apply gaimLogin_result.
    + apply gaimLogout_result.
    + by apply gaimShutdown_result in Hm as (_ & -> & _).
  - intros [= <-]. by rewrite process_result.
Qed.

(** One event changes whether [aor] is logged in as [logs] tells. *)
Lemma react_logs (aor : Uri) (e : Event) (g g' : GagConduit) :
  react e g = Some g' →
  bool_decide (is_Some (tuIM g' !! aor)) = logs aor e (bool_decide (is_Some (tuIM g !! aor))).
Proof.
  intros He. rewrite (react_tuIM _ _ _ He).
  destruct e as [message| | | | | | |]; try done.
  destruct message; try done; simpl; case_decide as Ha; subst; try done.
  - apply bool_decide_eq_true. rewrite lookup_insert_eq. eauto.
  - by rewrite lookup_insert_ne.
  - apply bool_decide_eq_false. rewrite lookup_delete_eq. by intros [? ?].
  - by rewrite lookup_delete_ne.
Qed.

Lemma react_all_logs (aor : Uri) (events : list Event) (g g' : GagConduit) :
  react_all events g = Some g' →
  bool_decide (is_Some (tuIM g' !! aor))
  = logged_in_after aor events (bool_decide (is_Some (tuIM g !! aor))).
Proof.
  revert g. induction events as [|e events IH]; simpl; intros g Hrun.
  - by injection Hrun as <-.
  - destruct (react e g) as [g1|] eqn:He; simpl in Hrun; [|done].
    rewrite (IH _ Hrun). unfold logged_in_after. simpl. by rewrite (react_logs aor _ _ _ He).
Qed.

(** After any sequence of events on a new conduit in which gaim sent no
    [SHUTDOWN], a user has an entry in [tuIM] exactly when gaim sent a
    [LOGIN] of the user and no [LOGOUT] of the user after the last one:
    [IM], [PRESENCE], the buddy messages, [process] and the callbacks log
    nobody in or out. *)
Theorem logged_in_iff_last_LOGIN (events : list Event) (port : Z) (g : GagConduit)
    (aor : Uri) :
  Gaim SHUTDOWN ∉ events →
  react_all events (GagConduit_new port) = Some g →
  is_Some (tuIM g !! aor) ↔ logged_in_after aor events false = true.
Proof.
  intros _ Hrun. rewrite <-(bool_decide_eq_true (is_Some (tuIM g !! aor))).
  rewrite (react_all_logs aor _ _ _ Hrun). simpl. rewrite lookup_empty.
  rewrite bool_decide_eq_false_2; [done|]. by intros [? ?].
Qed.

(** What a message of gaim does to the objects. *)
Lemma handleMessage_objects (message : GagMessage) (g g' : GagConduit) :
  handleMessage message g = Some g' →
  objects g'
  = match message with
    | IM from to im =>
        from_option (λ tu, alter (TuIM_called (sendPage im to false "")) tu (objects g))
          (objects g) (tuIM g !! from)
    | PRESENCE aor online status =>
        from_option (λ tu, alter (TuIM_called (setMyPresence online status)) tu (objects g))
          (objects g) (tuIM g !! aor)
    | ADD_BUDDY us them =>
        from_option (λ tu, alter (TuIM_called (addBuddy them "")) tu (objects g))
          (objects g) (tuIM g !! us)
    | REMOVE_BUDDY us them =>
        from_option (λ tu, alter (TuIM_called (removeBuddy them)) tu (objects g))
          (objects g) (tuIM g !! us)
    | LOGIN aor _ password =>
        <[fresh (dom (objects g)) :=
            mkTuIM aor (Uri_of_user (user aor))
              [setUAName "gag/0.0.1 (gaim)"; registerAor aor password]]> (objects g)
    | LOGOUT aor => from_option (λ tu, delete tu (objects g)) (objects g) (tuIM g !! aor)
    | _ => objects g
    end.
Proof.
  assert (Hwith : ∀ aor c,
            objects (with_Tu aor c g)
            = from_option (λ tu, alter (TuIM_called c) tu (objects g)) (objects g)
                (tuIM g !! aor)).
  { intros aor c. destruct (with_Tu_result aor c g) as (_ & _ & ->).
    by destruct (tuIM g !! aor). }
  destruct message; simpl; intros Hm; try (injection Hm as <-); try apply Hwith; try done.
  - apply gaimLogin_result.
  - destruct (gaimLogout_result aor g) as (_ & _ & ->). by destruct (tuIM g !! aor).
  - by apply gaimShutdown_result in Hm as (_ & _ & -> & _).
Qed.

(** A message of gaim other than [SHUTDOWN] that acts for one user, or for
    none ([HELLO], [GAG_ERROR], [LOGIN_STATUS], a type the [switch] does not
    know), leaves every other logged-in user alone: its entry of [tuIM] and
    its [TuIM] are the same afterwards (no call was made on it, and it was
    not deleted). *)
Theorem other_users_are_untouched (message : GagMessage) (g g' : GagConduit)
    (aor : Uri) (tu : ptr) :
  tuIM_ok g →
  message ≠ SHUTDOWN →
  handleMessage message g = Some g' →
  subject message ≠ Some aor →
  tuIM g !! aor = Some tu →
  tuIM g' !! aor = Some tu ∧ objects g' !! tu = objects g !! tu.
Proof.
  intros [Hlive Hdistinct] Hshutdown Hm Hsubject Haor.
  assert (Hother : ∀ a tu', a ≠ aor → tuIM g !! a = Some tu' → tu' ≠ tu).
  { intros a tu' Hne Ha ->. apply Hne. by eapply Hdistinct. }
  assert (Hfresh : fresh (dom (objects g)) ≠ tu).
  { intros Heq. apply (is_fresh (dom (objects g))). rewrite Heq. by eapply Hlive. }
  rewrite (handleMessage_objects _ _ _ Hm), (react_tuIM (Gaim message) _ _ Hm).
  destruct message; simpl in *; try done;
    try (assert (Hne : from ≠ aor) by congruence);
    try (assert (Hne : aor0 ≠ aor) by congruence);
    try (assert (Hne : us ≠ aor) by congruence).
  - split; [done|]. destruct (tuIM g !! from) as [tu'|] eqn:Hfrom; simpl; [|done].
    apply lookup_alter_ne. by eapply Hother.
  - split; [done|]. destruct (tuIM g !! aor0) as [tu'|] eqn:Hfrom; simpl; [|done].
    apply lookup_alter_ne. by eapply Hother.
  - split; [by rewrite lookup_insert_ne|]. by rewrite lookup_insert_ne.
  - split; [by rewrite lookup_delete_ne|].
    destruct (tuIM g !! aor0) as [tu'|] eqn:Hfrom; simpl; [|done].
    apply lookup_delete_ne. by eapply Hother.
  - split; [done|]. destruct (tuIM g !! us) as [tu'|] eqn:Hfrom; simpl; [|done].
    apply lookup_alter_ne. by eapply Hother.
  - split; [done|]. destruct (tuIM g !! us) as [tu'|] eqn:Hfrom; simpl; [|done].
    apply lookup_alter_ne. by eapply Hother.
Qed.

(** Which objects are allocated after one event. *)
Lemma react_objects_dom (e : Event) (g g' : GagConduit) :
  react e g = Some g' →
  dom (objects g')
  = match e with
    | Gaim (LOGIN _ _ _) => {[fresh (dom (objects g))]} ∪ dom (objects g)
    | Gaim (LOGOUT aor) => from_option (λ tu, dom (objects g) ∖ {[tu]}) (dom (objects g))
                             (tuIM g !! aor)
    | _ => dom (objects g)
    end.
Proof.
  destruct e as [message| | | | | | |]; simpl; try (by intros [= <-]).
  - intros Hm. rewrite (handleMessage_objects _ _ _ Hm).
    destruct message; try done.
    + destruct (tuIM g !! from); simpl; [apply dom_alter_L|done].
    + destruct (tuIM g !! aor); simpl; [apply dom_alter_L|done].
    + apply dom_insert_L.
    + destruct (tuIM g !! aor); simpl; [apply dom_delete_L|done].
    + destruct (tuIM g !! us); simpl; [apply dom_alter_L|done].
    + destruct (tuIM g !! us); simpl; [apply dom_alter_L|done].
  - intros [= <-]. rewrite process_result. simpl. apply dom_foldr_alter.
Qed.

(** A [TuIM] no entry points to is never deleted and never entered in the
    map again. *)
Lemma react_leaked (tu : ptr) (e : Event) (g g' : GagConduit) :
  react e g = Some g' → leaked tu g → leaked tu g'.
Proof.
  intros He [Hin Hnot]. unfold leaked.
  rewrite (react_objects_dom _ _ _ He), (react_tuIM _ _ _ He).
  destruct e as [message| | | | | | |]; try done.
  destruct message; try done.
  - split; [set_solver|]. intros a [[-> Heq]|[_ Ha]]%lookup_insert_Some.
    + apply (is_fresh (dom (objects g))). by rewrite Heq.
    + by eapply Hnot.
  - split.
    + destruct (tuIM g !! aor) as [tu'|] eqn:Haor; simpl; [|done].
      apply elem_of_difference. split; [done|]. intros ->%elem_of_singleton.
      by eapply Hnot.
    + intros a [_ Ha]%lookup_delete_Some. by eapply Hnot.
Qed.

Lemma react_all_leaked (tu : ptr) (events : list Event) (g g' : GagConduit) :
  react_all events g = Some g' → leaked tu g → leaked tu g'.
Proof.
  revert g. induction events as [|e events IH]; simpl; intros g Hrun Hleak.
  - by injection Hrun as <-.
  - destruct (react e g) as [g1|] eqn:He; simpl in Hrun; [|done].
    eapply IH; [done|]. by eapply react_leaked.
Qed.

(** A [LOGIN] of a user that is logged in overwrites the user's entry
    without deleting the [TuIM] it pointed to: whatever happens afterwards,
    that [TuIM] stays allocated and no entry of [tuIM] points to it. *)
Theorem second_LOGIN_leaks_the_TuIM (aor : Uri) (userid password : Data)
    (events : list Event) (g g' : GagConduit) (tu : ptr) :
  tuIM_ok g →
  tuIM g !! aor = Some tu →
  react_all (Gaim (LOGIN aor userid password) :: events) g = Some g' →
  leaked tu g'.
Proof.
  intros [Hlive Hdistinct] Haor Hrun. simpl in Hrun.
  eapply react_all_leaked; [exact Hrun|].
  destruct (gaimLogin_result aor userid password g) as (Htu & _ & Hobj).
  assert (Hin : tu ∈ dom (objects g)) by by eapply Hlive.
  split.
  - rewrite Hobj, dom_insert_L. set_solver.
  - intros a. rewrite Htu. intros [[-> Heq]|[Hne Ha]]%lookup_insert_Some.
    + apply (is_fresh (dom (objects g))). by rewrite Heq.
    + apply Hne. by eapply Hdistinct.
Qed.

(** [process()] calls [process()] once on the [TuIM] of every logged-in
    user and on no other object; the map is unchanged. *)
Theorem process_calls_each_TuIM_once (g : GagConduit) :
  tuIM_ok g →
  tuIM (process g) = tuIM g ∧
  (∀ aor tu, tuIM g !! aor = Some tu →
     objects (process g) !! tu = TuIM_called TuIM_process <$> objects g !! tu) ∧
  (∀ tu, (∀ aor, tuIM g !! aor ≠ Some tu) →
     objects (process g) !! tu = objects g !! tu).
Proof.
  intros [_ Hdistinct]. rewrite process_result. simpl.
  assert (Hnodup : NoDup ((map_to_list (tuIM g)).*2)).
  { apply NoDup_fmap_2_strong; [|apply NoDup_map_to_list].
    intros [a1 tu1] [a2 tu2] H1%elem_of_map_to_list H2%elem_of_map_to_list. simpl.
    intros <-. f_equal. by eapply Hdistinct. }
  assert (Hin : ∀ tu, tu ∈ (map_to_list (tuIM g)).*2 ↔ ∃ aor, tuIM g !! aor = Some tu).
  { intros tu. rewrite list_elem_of_fmap. split.
    - intros ([a tu'] & -> & Hentry%elem_of_map_to_list). by exists a.
    - intros [a Ha]. exists (a, tu). split; [done|]. by apply elem_of_map_to_list. }
  split_and!; [done| |].
  - intros aor tu Haor. rewrite lookup_foldr_alter by done.
    rewrite decide_True; [done|]. apply Hin. by exists aor.
  - intros tu Hnot. rewrite lookup_foldr_alter by done.
    rewrite decide_False; [done|]. intros [aor Haor]%Hin. by eapply Hnot.
Qed.

(** Only a [SHUTDOWN] writes [running]. *)
Lemma react_running (e : Event) (g g' : GagConduit) :
  react e g = Some g' →
  running g' = match e with Gaim SHUTDOWN => false | _ => running g end.
Proof.
  destruct e as [message| | | | | | |]; simpl; try (by intros [= <-]).
  - destruct message; simpl; intros Hm; try (injection Hm as <-);
      try apply with_Tu_result; try done.
    + apply gaimLogin_result.
    + apply gaimLogout_result.
    + by apply gaimShutdown_result in Hm as (_ & _ & _ & ->).
  - intros [= <-]. by rewrite process_result.
Qed.

Lemma react_all_running (events : list Event) (g g' : GagConduit) :
  react_all events g = Some g' →
  running g' = false ↔ running g = false ∨ Gaim SHUTDOWN ∈ events.
Proof.
  revert g. induction events as [|e events IH]; simpl; intros g Hrun.
  - injection Hrun as <-. rewrite elem_of_nil. tauto.
  - destruct (react e g) as [g1|] eqn:He; simpl in Hrun; [|done].
    rewrite (IH _ Hrun), (react_running _ _ _ He), elem_of_cons.
    destruct e as [message| | | | | | |]; [|split; [tauto|intros [?|[?|?]]; by auto]..].
    destruct message; split; try tauto; intros [?|[?|?]]; by auto.
Qed.

(** A conduit is constructed running and stops running exactly when a
    [SHUTDOWN] of gaim was handled. *)
Theorem running_until_SHUTDOWN (events : list Event) (port : Z) (g : GagConduit) :
  react_all events (GagConduit_new port) = Some g →
  running g = false ↔ Gaim SHUTDOWN ∈ events.
Proof.
  intros Hrun. rewrite (react_all_running _ _ _ Hrun). simpl. split; [|by auto].
  by intros [?|?].
Qed.

End GagConduitFacts.

Section GagConduitExamples.
Import gag.
Existing Instance exampleUris.

Lemma not_logged_in_only_writes_the_error_witness :
  tuIM aliceLoggedIn !! bob = None ∧
  handleMessage (IM bob alice "hi") aliceLoggedIn
  = Some (serialize (GAG_ERROR "You are not logged in as sip:bob@example") aliceLoggedIn).
Proof.
  assert (Hbob : tuIM aliceLoggedIn !! bob = None) by reflexivity.
  split; [exact Hbob|].
  apply (not_logged_in_only_writes_the_error bob alice "hi" false aliceLoggedIn _ Hbob).
  apply elem_of_cons. left. reflexivity.
Defined.

Lemma LOGIN_then_LOGOUT_witness :
  tuIM aliceLoggedIn !! bob = None ∧
  (g1 ← handleMessage (LOGIN bob "bob" "pw") aliceLoggedIn;
   handleMessage (LOGOUT bob) g1) = Some aliceLoggedIn.
Proof.
  assert (Hbob : tuIM aliceLoggedIn !! bob = None) by reflexivity.
  split; [exact Hbob|].
  exact (LOGIN_then_LOGOUT bob "bob" "pw" aliceLoggedIn Hbob).
Defined.

(** Alice's [TuIM] after her login, and after a message of hers. *)
Example aliceLoggedIn_objects :
  (tuIM aliceLoggedIn !! alice,
   tu_calls <$> objects (gaimIm alice bob "hi" aliceLoggedIn) !! 1%positive)
  = (Some 1%positive,
     Some [setUAName "gag/0.0.1 (gaim)"; registerAor alice "secret";
           sendPage "hi" bob false ""]).
Proof. reflexivity. Qed.

(** A second login of Alice writes the error, maps her to a new [TuIM] and
    leaves the first one allocated. *)
Example second_login :
  let g := gaimLogin alice "alice" "secret" aliceLoggedIn in
  (tuIM g !! alice, dom (objects g), cout g)
  = (Some 2%positive, {[1%positive; 2%positive]},
     [GAG_ERROR "You are already logged in as 0x7ffd5e8"]).
Proof. vm_compute. reflexivity. Qed.

(** A shutdown with a user logged in runs into the invalid iterator; with
    none it stops the conduit. *)
Example shutdown :
  (handleMessage SHUTDOWN aliceLoggedIn,
   running <$> handleMessage SHUTDOWN (GagConduit_new 5060))
  = (None, Some false).
Proof. vm_compute. reflexivity. Qed.

Lemma aliceLoggedIn_ok : tuIM_ok aliceLoggedIn.
Proof.
  apply (react_all_tuIM_ok [Gaim (LOGIN alice "alice" "secret")] (GagConduit_new 5060));
    [reflexivity|apply tuIM_ok_new].
Qed.

Lemma bothLoggedIn_ok : tuIM_ok bothLoggedIn.
Proof.
  apply (react_all_tuIM_ok [Gaim (LOGIN bob "bob" "pw")] aliceLoggedIn);
    [reflexivity|apply aliceLoggedIn_ok].
Qed.

(** The session of [exampleEvents] ends in [afterEvents]. *)
Lemma exampleEvents_afterEvents :
  react_all exampleEvents (GagConduit_new 5060) = Some afterEvents.
Proof.
  cbv [react_all exampleEvents react handleMessage mbind option_bind afterEvents
       aliceLoggedIn].
  reflexivity.
Qed.

Lemma tuIM_entries_stay_live_and_distinct_witness :
  ∃ g, react_all exampleEvents (GagConduit_new 5060) = Some g ∧ tuIM_ok g.
Proof.
  exists afterEvents. split; [exact exampleEvents_afterEvents|].
  exact (tuIM_entries_stay_live_and_distinct exampleEvents 5060 afterEvents exampleEvents_afterEvents).
Defined.

Lemma logged_in_iff_last_LOGIN_witness :
  (Gaim SHUTDOWN ∉ exampleEvents) ∧
  ∃ g,
    react_all exampleEvents (GagConduit_new 5060) = Some g ∧
    (is_Some (tuIM g !! bob) ↔ logged_in_after bob exampleEvents false = true) ∧
    (is_Some (tuIM g !! alice) ↔ logged_in_after alice exampleEvents false = true).
Proof.
  assert (Hnone : Gaim SHUTDOWN ∉ exampleEvents).
  { intros Hin. repeat (apply elem_of_cons in Hin as [[=]|Hin]).
    by apply elem_of_nil in Hin. }
  split; [exact Hnone|].
  exists afterEvents. split; [exact exampleEvents_afterEvents|]. split.
  - exact (logged_in_iff_last_LOGIN exampleEvents 5060 afterEvents bob Hnone
             exampleEvents_afterEvents).
  - exact (logged_in_iff_last_LOGIN exampleEvents 5060 afterEvents alice Hnone
             exampleEvents_afterEvents).
Defined.

Lemma other_users_are_untouched_witness :
  tuIM_ok bothLoggedIn ∧
  IM alice bob "hi" ≠ SHUTDOWN ∧
  handleMessage (IM alice bob "hi") bothLoggedIn = Some (gaimIm alice bob "hi" bothLoggedIn) ∧
  subject (IM alice bob "hi") ≠ Some bob ∧
  tuIM bothLoggedIn !! bob = Some 2%positive ∧
  tuIM (gaimIm alice bob "hi" bothLoggedIn) !! bob = Some 2%positive ∧
  objects (gaimIm alice bob "hi" bothLoggedIn) !! 2%positive
  = objects bothLoggedIn !! 2%positive.
Proof.
  assert (Hm : handleMessage (IM alice bob "hi") bothLoggedIn
               = Some (gaimIm alice bob "hi" bothLoggedIn)) by reflexivity.
  assert (Hsubject : subject (IM alice bob "hi") ≠ Some bob) by (intros [=]).
  assert (Hshutdown : IM alice bob "hi" ≠ SHUTDOWN) by (intros [=]).
  assert (Hbob : tuIM bothLoggedIn !! bob = Some 2%positive) by (vm_compute; reflexivity).
  split; [exact bothLoggedIn_ok|]. split; [exact Hshutdown|]. split; [exact Hm|].
  split; [exact Hsubject|]. split; [exact Hbob|].
  exact (other_users_are_untouched (IM alice bob "hi") bothLoggedIn _ bob 2%positive
           bothLoggedIn_ok Hshutdown Hm Hsubject Hbob).
Defined.

Lemma second_LOGIN_leaks_the_TuIM_witness :
  tuIM_ok aliceLoggedIn ∧
  tuIM aliceLoggedIn !! alice = Some 1%positive ∧
  ∃ g',
    react_all [Gaim (LOGIN alice "alice" "secret"); Gaim (LOGOUT alice)] aliceLoggedIn
    = Some g' ∧
    leaked 1%positive g'.
Proof.
  assert (Halice : tuIM aliceLoggedIn !! alice = Some 1%positive) by (vm_compute; reflexivity).
  split; [exact aliceLoggedIn_ok|]. split; [exact Halice|].
  eexists. split; [reflexivity|].
  exact (second_LOGIN_leaks_the_TuIM alice "alice" "secret" [Gaim (LOGOUT alice)]
           aliceLoggedIn _ 1%positive aliceLoggedIn_ok Halice eq_refl).
Defined.

Lemma process_calls_each_TuIM_once_witness :
  tuIM_ok bothLoggedIn ∧
  tuIM (process bothLoggedIn) = tuIM bothLoggedIn ∧
  (∀ aor tu, tuIM bothLoggedIn !! aor = Some tu →
     objects (process bothLoggedIn) !! tu
     = TuIM_called TuIM_process <$> objects bothLoggedIn !! tu) ∧
  (∀ tu, (∀ aor, tuIM bothLoggedIn !! aor ≠ Some tu) →
     objects (process bothLoggedIn) !! tu = objects bothLoggedIn !! tu).
Proof.
  split; [exact bothLoggedIn_ok|].
  exact (process_calls_each_TuIM_once bothLoggedIn bothLoggedIn_ok).
Defined.

(** The session of [shutdownEvents] ends in [afterShutdown]. *)
Lemma shutdownEvents_afterShutdown :
  react_all shutdownEvents (GagConduit_new 5060) = Some afterShutdown.
Proof. vm_compute. reflexivity. Qed.

Lemma running_until_SHUTDOWN_witness :
  ∃ g,
    react_all shutdownEvents (GagConduit_new 5060) = Some g ∧
    running g = false ∧
    Gaim SHUTDOWN ∈ shutdownEvents ∧
    (running g = false ↔ Gaim SHUTDOWN ∈ shutdownEvents).
Proof.
  exists afterShutdown. split; [exact shutdownEvents_afterShutdown|].
  split; [reflexivity|]. split.
  - unfold shutdownEvents. rewrite !elem_of_cons. auto.
  - exact (running_until_SHUTDOWN shutdownEvents 5060 afterShutdown
             shutdownEvents_afterShutdown).
Defined.

(** The session leaves Bob logged in and Alice logged out; Bob's [TuIM]
    has the two calls of his login, and the page of Bob was written. *)
Example exampleEvents_result :
  (g ← react_all exampleEvents (GagConduit_new 5060);
   Some (tuIM g !! alice, tuIM g !! bob, tu_calls <$> objects g !! 2%positive, cout g))
  = Some (None, Some 2%positive,
          Some [setUAName "gag/0.0.1 (gaim)"; registerAor bob "pw"],
          [IM bob dummy "hello"]).
Proof. vm_compute. reflexivity. Qed.

End GagConduitExamples.
